(** * The LOD tile quadtree of csp-lod-bodies: TileNode and TreeManager

    A shallow embedding of [plugins/csp-lod-bodies/src/TileNode.cpp] over an
    explicit store of nodes, and of the tree manager declared in
    [plugins/csp-lod-bodies/src/TreeManager.hpp].

    Nodes are addressed by pointers.  A [TileNode*] is an [option ptr]
    ([None] is [nullptr]); the objects live in a finite map from addresses to
    node records, so that the raw parent back-reference, the owning child
    pointers and every alias between them are visible in the model. *)

From Stdlib Require Import ZArith Lia.
From stdpp Require Import base option list gmap fin_sets strings.

Local Open Scope Z_scope.

(** ** Outcomes of a member function *)

(** [Ok a]: the call returns [a].  [OutOfRange]: [std::array::at] threw
    [std::out_of_range].  [Undefined]: a null or dangling pointer was
    dereferenced. *)
Inductive result (A : Type) : Type :=
  | Ok (a : A)
  | OutOfRange
  | Undefined.
Arguments Ok {A} a.
Arguments OutOfRange {A}.
Arguments Undefined {A}.

#[global] Instance result_ret : MRet result := λ A a, Ok a.
#[global] Instance result_bind : MBind result := λ A B f r,
  match r with
  | Ok a => f a
  | OutOfRange => OutOfRange
  | Undefined => Undefined
  end.

Definition is_Ok {A} (r : result A) : Prop := ∃ a, r = Ok a.

(** ** TileId and the tile payload *)

Record TileId : Type := mkTileId { tid_level : Z; tid_patchIdx : Z }.

#[global] Instance TileId_eq_dec : EqDecision TileId.
Proof. solve_decision. Defined.

#[global] Instance TileId_countable : Countable TileId :=
  inj_countable' (λ t, (tid_level t, tid_patchIdx t))
                 (λ p, mkTileId p.1 p.2)
                 (λ t, match t with mkTileId _ _ => eq_refl end).

(** [TileBase] is an abstract class whose header is not part of the sources
    at hand; [TileNode] only calls these four const members on it. *)
Class TileBaseOps (TileBase : Type) : Type := {
  tb_getLevel : TileBase → Z;
  tb_getPatchIdx : TileBase → Z;
  tb_getTileId : TileBase → TileId;
  tb_getTypeId : TileBase → string
}.

(** ** std::array<T, 4> with checked access *)

Record array4 (A : Type) : Type :=
  Array4 { elem0 : A; elem1 : A; elem2 : A; elem3 : A }.
Arguments Array4 {A} _ _ _ _.
Arguments elem0 {A} _.
Arguments elem1 {A} _.
Arguments elem2 {A} _.
Arguments elem3 {A} _.

(** [a.at(i)] read.  The index is an [int] converted to [size_t]: a negative
    one becomes huge and throws like any other index above 3. *)
Definition array_at {A} (a : array4 A) (i : Z) : result A :=
  if decide (i = 0) then Ok (elem0 a)
  else if decide (i = 1) then Ok (elem1 a)
  else if decide (i = 2) then Ok (elem2 a)
  else if decide (i = 3) then Ok (elem3 a)
  else OutOfRange.

(** Assignment through the reference returned by [a.at(i)]. *)
Definition array_set {A} (a : array4 A) (i : Z) (v : A) : result (array4 A) :=
  if decide (i = 0) then Ok (Array4 v (elem1 a) (elem2 a) (elem3 a))
  else if decide (i = 1) then Ok (Array4 (elem0 a) v (elem2 a) (elem3 a))
  else if decide (i = 2) then Ok (Array4 (elem0 a) (elem1 a) v (elem3 a))
  else if decide (i = 3) then Ok (Array4 (elem0 a) (elem1 a) (elem2 a) v)
  else OutOfRange.

Abbreviation ptr := positive (only parsing).

Section TileNode.
Context {TileBase : Type} `{!TileBaseOps TileBase}.

(** ** TileNode *)

(** [mTile] is a [std::unique_ptr<TileBase>], [mParent] a raw [TileNode*],
    [mChildren] a [std::array<std::unique_ptr<TileNode>, 4>]. *)
Record TileNode : Type := mkTileNode {
  mTile : option TileBase;
  mParent : option ptr;
  mChildren : array4 (option ptr)
}.

Abbreviation heap := (gmap ptr TileNode) (only parsing).

(** [TileNode(TileBase* tile)] and [TileNode(std::unique_ptr<TileBase>&&)]:
    the payload, no parent, four empty child slots. *)
Definition newTileNode (tile : option TileBase) : TileNode :=
  mkTileNode tile None (Array4 None None None None).

(** Access to the object behind [this] or behind any other pointer. *)
Definition deref (h : heap) (p : ptr) : result TileNode :=
  match h !! p with
  | Some n => Ok n
  | None => Undefined
  end.

Definition derefTile (n : TileNode) : result TileBase :=
  match mTile n with
  | Some t => Ok t
  | None => Undefined
  end.

Definition getLevel (this : ptr) (h : heap) : result Z :=
  n ← deref h this; t ← derefTile n; Ok (tb_getLevel t).

Definition getPatchIdx (this : ptr) (h : heap) : result Z :=
  n ← deref h this; t ← derefTile n; Ok (tb_getPatchIdx t).

Definition getTileId (this : ptr) (h : heap) : result TileId :=
  n ← deref h this; t ← derefTile n; Ok (tb_getTileId t).

Definition getTileTypeId (this : ptr) (h : heap) : result string :=
  n ← deref h this; t ← derefTile n; Ok (tb_getTypeId t).

Definition getTile (this : ptr) (h : heap) : result (option TileBase) :=
  n ← deref h this; Ok (mTile n).

Definition releaseTile (this : ptr) (h : heap) : result (heap * option TileBase) :=
  n ← deref h this;
  Ok (<[this := mkTileNode None (mParent n) (mChildren n)]> h, mTile n).

Definition setTile (this : ptr) (tile : option TileBase) (h : heap) : result heap :=
  n ← deref h this;
  Ok (<[this := mkTileNode tile (mParent n) (mChildren n)]> h).

Definition getChild (this : ptr) (childIdx : Z) (h : heap) : result (option ptr) :=
  n ← deref h this; array_at (mChildren n) childIdx.

Definition getParent (this : ptr) (h : heap) : result (option ptr) :=
  n ← deref h this; Ok (mParent n).

Definition setParent (this : ptr) (parent : option ptr) (h : heap) : result heap :=
  n ← deref h this;
  Ok (<[this := mkTileNode (mTile n) parent (mChildren n)]> h).

(** [if (mChildren.at(childIdx)) mChildren.at(childIdx)->setParent(nullptr);]
    the first statement of both [releaseChild] and [setChild]. *)
Definition unsetOldParent (this : ptr) (childIdx : Z) (h : heap) : result heap :=
  c ← getChild this childIdx h;
  match c with
  | Some old => setParent old None h
  | None => Ok h
  end.

(** Store [v] in slot [childIdx] of [this] and hand back what the slot held. *)
Definition exchangeSlot (this : ptr) (childIdx : Z) (v : option ptr) (h : heap)
  : result (heap * option ptr) :=
  n ← deref h this;
  old ← array_at (mChildren n) childIdx;
  a ← array_set (mChildren n) childIdx v;
  Ok (<[this := mkTileNode (mTile n) (mParent n) a]> h, old).

Definition releaseChild (this : ptr) (childIdx : Z) (h : heap)
  : result (heap * option ptr) :=
  h1 ← unsetOldParent this childIdx h;
  exchangeSlot this childIdx None h1.

(** *** Destruction of a node

    [delete p] on a [TileNode] runs the implicit destructor, which destroys
    the four owning child pointers, last slot first, and with each of them
    deletes the node it holds, recursively; then the storage of [p] is given
    back.  While the children are destroyed [p] is no object any more, so it
    leaves the store first.  Deleting a pointer that is not live is
    undefined: a dangling child pointer, a node that the deletion has
    already freed through another slot, a node that owns one of its
    ancestors.

    The recursion is on a bound of its depth; every call takes a node out of
    the store before it recurses, so the size of the store plus one suffices
    (lemma [destroyRec_fuel]) and the bound is never what makes the result
    [Undefined]. *)
Definition childPtrs (n : TileNode) : list ptr :=
  omap id [elem0 (mChildren n); elem1 (mChildren n);
           elem2 (mChildren n); elem3 (mChildren n)].

Fixpoint foldM {A S : Type} (f : A → S → result S) (l : list A) (s : S) : result S :=
  match l with
  | [] => Ok s
  | x :: l' => s1 ← f x s; foldM f l' s1
  end.

Fixpoint destroyRec (fuel : nat) (p : ptr) (h : heap) : result heap :=
  match fuel with
  | O => Undefined
  | S fuel' =>
      n ← deref h p;
      foldM (destroyRec fuel') (reverse (childPtrs n)) (delete p h)
  end.

Definition destroy (p : ptr) (h : heap) : result heap :=
  destroyRec (S (size h)) p h.

(** The nodes that [delete p] frees when it is defined: [p] and what is
    reached from it through child slots that hold live nodes.  The set is
    computed by closing the singleton of [p] under live children; [size h]
    rounds are enough (lemma [owned_closed] below). *)
Definition liveChildren (h : heap) (p : ptr) : gset ptr :=
  match h !! p with
  | Some n => list_to_set (filter (λ c, is_Some (h !! c)) (childPtrs n))
  | None => ∅
  end.

Definition expand (h : heap) (X : gset ptr) : gset ptr :=
  X ∪ set_bind (liveChildren h) X.

Definition owned (h : heap) (p : ptr) : gset ptr :=
  Nat.iter (size h) (expand h) {[p]}.

(** The store without the nodes owned by [p]: what a defined [delete p]
    leaves (lemma [destroy_Ok]). *)
Definition sweep (p : ptr) (h : heap) : heap :=
  filter (λ kv, kv.1 ∉ owned h p) h.

(** [mChildren.at(childIdx).reset(child)]: the slot takes [child], then the
    node it held before is deleted. *)
Definition resetSlot (this : ptr) (childIdx : Z) (child : option ptr) (h : heap)
  : result heap :=
  '(h1, old) ← exchangeSlot this childIdx child h;
  match old with
  | Some o => destroy o h1
  | None => Ok h1
  end.

(** [if (mChildren.at(childIdx)) mChildren.at(childIdx)->setParent(this);] *)
Definition setNewParent (this : ptr) (childIdx : Z) (h : heap) : result heap :=
  c ← getChild this childIdx h;
  match c with
  | Some new => setParent new (Some this) h
  | None => Ok h
  end.

Definition setChild (this : ptr) (childIdx : Z) (child : option ptr) (h : heap)
  : result heap :=
  h1 ← unsetOldParent this childIdx h;
  h2 ← resetSlot this childIdx child h1;
  setNewParent this childIdx h2.

(** The free function [isRefined]; [&&] evaluates left to right and stops at
    the first null child. *)
Definition isRefined (node : ptr) (h : heap) : result bool :=
  a ← getChild node 0 h;
  if a is None then Ok false else
  b ← getChild node 1 h;
  if b is None then Ok false else
  c ← getChild node 2 h;
  if c is None then Ok false else
  d ← getChild node 3 h;
  if d is None then Ok false else Ok true.

(** *** Sequences of child operations and the back-reference invariant *)

Inductive childOp : Type :=
  | SetChild (this : ptr) (childIdx : Z) (child : option ptr)
  | ReleaseChild (this : ptr) (childIdx : Z).

Definition runOp (op : childOp) (h : heap) : result heap :=
  match op with
  | SetChild this i child => setChild this i child h
  | ReleaseChild this i => '(h1, _) ← releaseChild this i h; Ok h1
  end.

Fixpoint runOps (ops : list childOp) (h : heap) : result heap :=
  match ops with
  | [] => Ok h
  | op :: ops' => h1 ← runOp op h; runOps ops' h1
  end.

(** Every node with a non-null parent sits in one of the four slots of that
    parent. *)
Definition noDanglingBackRefs (h : heap) : Prop :=
  ∀ k p, getParent k h = Ok (Some p) →
         ∃ q, 0 ≤ q ≤ 3 ∧ getChild p q h = Ok (Some k).

(** The back-reference invariant with the slot fixed by the tile.
    [quadrantOf] maps a TileId to the child index of the tile in its parent
    ([TileId.hpp] is not among the sources, and [TileNode.cpp] never computes
    such an index): every node that has a parent and holds a tile sits in
    the slot of that parent that [quadrantOf] names for its TileId. *)
Definition ownQuadrantBackRefs (quadrantOf : TileId → Z) (h : heap) : Prop :=
  ∀ k p id, getParent k h = Ok (Some p) → getTileId k h = Ok id →
            getChild p (quadrantOf id) h = Ok (Some k).

(** The call puts a node that holds a tile into the slot [quadrantOf] names
    for it; [releaseChild] and [setChild] with a null child place nothing. *)
Definition placedByQuadrant (quadrantOf : TileId → Z) (op : childOp) (h : heap)
  : Prop :=
  match op with
  | SetChild _ i (Some c) => ∀ id, getTileId c h = Ok id → i = quadrantOf id
  | _ => True
  end.

(** Every call of the sequence places by quadrant, in the store it runs
    on. *)
Fixpoint placesByQuadrant (quadrantOf : TileId → Z) (ops : list childOp) (h : heap)
  : Prop :=
  match ops with
  | [] => True
  | op :: ops' =>
      placedByQuadrant quadrantOf op h ∧
      ∀ h1, runOp op h = Ok h1 → placesByQuadrant quadrantOf ops' h1
  end.

(** [reachable h root k]: [k] is [root] or is reached from it through child
    slots. *)
Inductive reachable (h : heap) (root : ptr) : ptr → Prop :=
  | reachable_root : is_Some (h !! root) → reachable h root root
  | reachable_child p q c :
      reachable h root p → getChild p q h = Ok (Some c) → reachable h root c.

(** *** Ownership through child slots *)

(** Every occupied slot points to a node whose back-reference names the
    owner of the slot (so the node is live). *)
Definition ownersAgree (h : heap) : Prop :=
  ∀ p q c, getChild p q h = Ok (Some c) → getParent c h = Ok (Some p).

(** No node sits in two slots of one parent. *)
Definition noSharedSlot (h : heap) : Prop :=
  ∀ p q q' c, getChild p q h = Ok (Some c) → getChild p q' h = Ok (Some c) → q = q'.

(** No slot of any node holds [c]: the caller owns it. *)
Definition detached (c : ptr) (h : heap) : Prop :=
  ∀ p q, getChild p q h ≠ Ok (Some c).



(** [freed h roots h']: [h'] is [h] without the nodes in [roots] and
    without what they own; whatever a freed node held is gone as well. *)
Definition freed (h : heap) (roots : list ptr) (h' : heap) : Prop :=
  h' ⊆ h ∧
  (∀ r, r ∈ roots → is_Some (h !! r) ∧ h' !! r = None) ∧
  (∀ k, is_Some (h !! k) → h' !! k = None → ∃ r, r ∈ roots ∧ k ∈ owned h r) ∧
  (∀ d nd j c, h !! d = Some nd → h' !! d = None →
               array_at (mChildren nd) j = Ok (Some c) → h' !! c = None).

(** ** TreeManager

    [TreeManager.hpp] declares the class, its members and the helper types;
    the bodies of its member functions are not among the sources at hand. *)

(** [struct NodeAge]: a node that could not be merged and the frame it was
    loaded in. *)
Record NodeAge : Type := mkNodeAge { mNode : ptr; mFrame : Z }.

(** Modelled from the spec: an AgeStore entry.  The header makes it a pointer
    to a RenderDataMap entry, named here by the key of that entry; the age
    that section 4.2 attaches to it ("with age 0", "age incremented by one
    frame") is kept next to the key. *)
Record AgeEntry : Type := mkAgeEntry { ae_id : TileId; ae_age : Z }.

(** Modelled from the spec: the configuration surface of section 6 (grace
    period of unmerged nodes, age threshold and target occupancy of the prune
    phase); [PlanetParameters] is not among the sources. *)
Record Config : Type := mkConfig {
  cfgGracePeriod : Z;
  cfgAgeThreshold : Z;
  cfgTargetOccupancy : nat
}.

(** The data members of [TreeManager] that the merge and prune phases use,
    together with the store of the nodes they point to.  [mTree] is modelled
    from the spec: the "root-holding container" [TileQuadTree] is not among
    the sources; it maps the patch index of a level 0 tile to its node. *)
Record TreeManager : Type := mkTreeManager {
  mHeap : gmap ptr TileNode;
  mRdMap : gmap TileId ptr;
  mAgeStore : list AgeEntry;
  mTree : gmap Z ptr;
  mPendingTiles : gset TileId;
  mUnmergedNodes : list NodeAge;
  mLoadedNodes : list ptr;
  mFrameCount : Z
}.

Definition getFrameCount (s : TreeManager) : Z := mFrameCount s.

Definition setFrameCount (frameCount : Z) (s : TreeManager) : TreeManager :=
  mkTreeManager (mHeap s) (mRdMap s) (mAgeStore s) (mTree s) (mPendingTiles s)
                (mUnmergedNodes s) (mLoadedNodes s) frameCount.

Definition withHeap (h : heap) (s : TreeManager) : TreeManager :=
  mkTreeManager h (mRdMap s) (mAgeStore s) (mTree s) (mPendingTiles s)
                (mUnmergedNodes s) (mLoadedNodes s) (mFrameCount s).

Definition withUnmerged (u : list NodeAge) (s : TreeManager) : TreeManager :=
  mkTreeManager (mHeap s) (mRdMap s) (mAgeStore s) (mTree s) (mPendingTiles s)
                u (mLoadedNodes s) (mFrameCount s).

Definition withLoaded (l : list ptr) (s : TreeManager) : TreeManager :=
  mkTreeManager (mHeap s) (mRdMap s) (mAgeStore s) (mTree s) (mPendingTiles s)
                (mUnmergedNodes s) l (mFrameCount s).

(** Modelled from the spec: the completion callback [onNodeLoaded] of section
    5 pushes the fully built node onto the shared queue; its id leaves
    PendingTiles (section 3). *)
Definition onNodeLoaded (level patchIdx : Z) (node : ptr) (s : TreeManager)
  : TreeManager :=
  mkTreeManager (mHeap s) (mRdMap s) (mAgeStore s) (mTree s)
                (mPendingTiles s ∖ {[mkTileId level patchIdx]})
                (mUnmergedNodes s) (mLoadedNodes s ++ [node]) (mFrameCount s).

(** Modelled from the spec: "locate the would-be parent by walking the TileId
    hierarchy (level - 1, patch index shifted)"; a quadtree has four
    quadrants per patch, so the shift is by two bits and the quadrant is the
    two bits shifted out. *)
Definition parentId (id : TileId) : TileId :=
  mkTileId (tid_level id - 1) (Z.shiftr (tid_patchIdx id) 2).

(** Modelled from the spec: "the corresponding child slot" of a tile in its
    parent. *)
Definition quadrant (id : TileId) : Z := Z.land (tid_patchIdx id) 3.

(** Modelled from the spec: what section 4.2 does once a node has been
    attached: "insert it into RenderDataMap and AgeStore with age 0".  The
    "node inserted" hook only talks to the GPU collaborator, which is outside
    the modelled state. *)
Definition registerNode (id : TileId) (node : ptr) (h : heap) (tree : gmap Z ptr)
    (s : TreeManager) : TreeManager :=
  mkTreeManager h (<[id := node]> (mRdMap s)) (mAgeStore s ++ [mkAgeEntry id 0])
                tree (mPendingTiles s) (mUnmergedNodes s) (mLoadedNodes s)
                (mFrameCount s).

Inductive InsertOutcome : Type := Inserted | DiscardedDuplicate | ParentMissing.

(** Modelled from the spec: the insertion attempt of section 4.2, step 2.
    - parent in RenderDataMap, slot empty: attach with [setChild], register;
    - parent in RenderDataMap, slot occupied: the loaded node is discarded;
    - parent not in RenderDataMap: nothing happens, the caller defers.
    A level 0 tile has no parent tile; following the scenario of section 8
    ("root -> child0(level0)") it is held by the tree root under its patch
    index, with the same empty/occupied rule. *)
Definition insertNode (node : ptr) (s : TreeManager)
  : result (TreeManager * InsertOutcome) :=
  id ← getTileId node (mHeap s);
  if decide (tid_level id = 0) then
    match mTree s !! tid_patchIdx id with
    | None =>
        Ok (registerNode id node (mHeap s) (<[tid_patchIdx id := node]> (mTree s)) s,
            Inserted)
    | Some _ => h ← destroy node (mHeap s); Ok (withHeap h s, DiscardedDuplicate)
    end
  else
    match mRdMap s !! parentId id with
    | None => Ok (s, ParentMissing)
    | Some parent =>
        slot ← getChild parent (quadrant id) (mHeap s);
        match slot with
        | None =>
            h ← setChild parent (quadrant id) (Some node) (mHeap s);
            Ok (registerNode id node h (mTree s) s, Inserted)
        | Some _ => h ← destroy node (mHeap s); Ok (withHeap h s, DiscardedDuplicate)
        end
    end.

(** Modelled from the spec: a drained node whose parent is missing "is
    appended to UnmergedNodes with the current frame number"
    ([TreeManager::storeUnmerged] in the header's words). *)
Definition storeUnmerged (node : ptr) (s : TreeManager) : TreeManager :=
  withUnmerged (mUnmergedNodes s ++ [mkNodeAge node (mFrameCount s)]) s.

(** Modelled from the spec: what the merge does with one drained node. *)
Definition mergeLoaded (node : ptr) (s : TreeManager) : result TreeManager :=
  '(s1, o) ← insertNode node s;
  match o with
  | ParentMissing => Ok (storeUnmerged node s1)
  | _ => Ok s1
  end.

(** Modelled from the spec: an unmerged node is "retried on subsequent merges
    until a grace-period threshold (measured in frames since completion) is
    exceeded, after which it is destroyed"; the header: "If this grace period
    has expired and the node still cannot be inserted into the tree it is
    deleted (see TreeManager::mergeUnmerged)". *)
Definition retryUnmerged (cfg : Config) (na : NodeAge) (s : TreeManager)
  : result TreeManager :=
  '(s1, o) ← insertNode (mNode na) s;
  match o with
  | ParentMissing =>
      if decide (cfgGracePeriod cfg < mFrameCount s1 - mFrame na)
      then h ← destroy (mNode na) (mHeap s1); Ok (withHeap h s1)
      else Ok (withUnmerged (mUnmergedNodes s1 ++ [na]) s1)
  | _ => Ok s1
  end.

(** Modelled from the spec: the retry of all unmerged nodes; the ones that
    stay unmerged are collected again, in their order. *)
Definition mergeUnmerged (cfg : Config) (s : TreeManager) : result TreeManager :=
  foldM (retryUnmerged cfg) (mUnmergedNodes s) (withUnmerged [] s).

(** Modelled from the spec: phases 1 and 2 of [update()].  The queue of
    loaded nodes is drained; the nodes left unmerged by earlier merges are
    retried; then each drained node is merged or deferred, in the order of
    its delivery. *)
Definition merge (cfg : Config) (s : TreeManager) : result TreeManager :=
  let loaded := mLoadedNodes s in
  s1 ← mergeUnmerged cfg (withLoaded [] s);
  foldM mergeLoaded loaded s1.

(** *** States in which a merge is well defined *)

(** A node as the completion callback hands it over: live, holding its tile,
    detached, without children. *)
Definition freshLeaf (h : heap) (x : ptr) : Prop :=
  ∃ t, h !! x = Some (newTileNode (Some t)).

(** The nodes that have been loaded but are not part of the tree yet. *)
Definition pendingNodes (s : TreeManager) : list ptr :=
  (mNode <$> mUnmergedNodes s) ++ mLoadedNodes s.

(** No node is queued twice, every queued node is a fresh leaf, and every
    RenderDataMap entry points to a live node that carries the key as its
    TileId and is not queued. *)
Definition wfManager (s : TreeManager) : Prop :=
  NoDup (pendingNodes s) ∧
  (∀ x, x ∈ pendingNodes s → freshLeaf (mHeap s) x) ∧
  (∀ id n, mRdMap s !! id = Some n →
           getTileId n (mHeap s) = Ok id ∧ n ∉ pendingNodes s).

(** The tile [id] could be merged right now: its place (the root slot of a
    level 0 tile, the quadrant of its resident parent otherwise) is free. *)
Definition canInsert (id : TileId) (s : TreeManager) : Prop :=
  if decide (tid_level id = 0) then mTree s !! tid_patchIdx id = None
  else ∃ pp, mRdMap s !! parentId id = Some pp ∧
             getChild pp (quadrant id) (mHeap s) = Ok None.

(** The node [c] was delivered before the node [p], which is in the queue
    now: [c] is among the unmerged nodes of an earlier update, or it is in
    the queue ahead of [p]. *)
Definition deliveredBefore (c p : ptr) (s : TreeManager) : Prop :=
  (c ∈ mNode <$> mUnmergedNodes s ∧ p ∈ mLoadedNodes s) ∨
  (∃ l1 l2 l3, mLoadedNodes s = l1 ++ c :: l2 ++ p :: l3).

(** The grace period of [c] has not expired in the current frame. *)
Definition unexpired (cfg : Config) (c : ptr) (s : TreeManager) : Prop :=
  ∀ na, na ∈ mUnmergedNodes s → mNode na = c →
        mFrameCount s - mFrame na ≤ cfgGracePeriod cfg.

(** At most one outstanding load per TileId, for the two ids at hand. *)
Definition soleLoads (p c : ptr) (pid cid : TileId) (s : TreeManager) : Prop :=
  ∀ x, x ∈ pendingNodes s →
       (getTileId x (mHeap s) = Ok pid → x = p) ∧
       (getTileId x (mHeap s) = Ok cid → x = c).

(** Both tiles are resident and the child sits in its quadrant of the
    parent. *)
Definition linked (p c : ptr) (pid cid : TileId) (s : TreeManager) : Prop :=
  mRdMap s !! pid = Some p ∧ mRdMap s !! cid = Some c ∧
  getChild p (quadrant cid) (mHeap s) = Ok (Some c) ∧
  getParent c (mHeap s) = Ok (Some p).

(** *** The merge as one pass over work items *)

(** A merge handles the unmerged nodes of earlier updates ([inl]) and then
    the drained nodes ([inr]). *)
Definition itemNode (it : NodeAge + ptr) : ptr :=
  match it with
  | inl na => mNode na
  | inr x => x
  end.

Definition mergeItem (cfg : Config) (it : NodeAge + ptr) (s : TreeManager)
  : result TreeManager :=
  match it with
  | inl na => retryUnmerged cfg na s
  | inr x => mergeLoaded x s
  end.

Definition mergeItems (s : TreeManager) : list (NodeAge + ptr) :=
  (inl <$> mUnmergedNodes s) ++ (inr <$> mLoadedNodes s).

(** How far the pair of a parent [p] and its child [c] has come. *)
Inductive phase : Type := BothPending | ParentIn | Linked.

Definition next (p c : ptr) (ph : phase) (x : ptr) : phase :=
  match ph with
  | BothPending => if decide (x = p) then ParentIn else BothPending
  | ParentIn => if decide (x = c) then Linked else ParentIn
  | Linked => Linked
  end.

Definition pendingAt (todo : list (NodeAge + ptr)) (s : TreeManager) : list ptr :=
  (itemNode <$> todo) ++ (mNode <$> mUnmergedNodes s).

Definition common (p c : ptr) (pid cid : TileId)
    (todo : list (NodeAge + ptr)) (s : TreeManager) : Prop :=
  NoDup (pendingAt todo s) ∧
  (∀ x, x ∈ pendingAt todo s → freshLeaf (mHeap s) x) ∧
  (∀ id n, mRdMap s !! id = Some n →
           getTileId n (mHeap s) = Ok id ∧ n ∉ pendingAt todo s) ∧
  (∀ x, x ∈ pendingAt todo s →
        (getTileId x (mHeap s) = Ok pid → x = p) ∧
        (getTileId x (mHeap s) = Ok cid → x = c)) ∧
  mLoadedNodes s = [].

Definition phaseInv (cfg : Config) (p c : ptr) (pid cid : TileId) (ph : phase)
    (todo : list (NodeAge + ptr)) (s : TreeManager) : Prop :=
  match ph with
  | BothPending =>
      p ∈ pendingAt todo s ∧ c ∈ pendingAt todo s ∧
      getTileId p (mHeap s) = Ok pid ∧ getTileId c (mHeap s) = Ok cid ∧
      mRdMap s !! pid = None ∧ mRdMap s !! cid = None ∧
      canInsert pid s ∧
      (∀ na, inl na ∈ todo → mNode na = c →
             mFrameCount s - mFrame na ≤ cfgGracePeriod cfg)
  | ParentIn =>
      c ∈ pendingAt todo s ∧ getTileId c (mHeap s) = Ok cid ∧
      mRdMap s !! pid = Some p ∧ mRdMap s !! cid = None ∧
      getChild p (quadrant cid) (mHeap s) = Ok None
  | Linked => linked p c pid cid s
  end.

End TileNode.

(** A concrete payload for the examples: a tile that knows its id. *)
Record PlainTile : Type := mkPlainTile { pt_id : TileId }.

#[global] Instance PlainTile_ops : TileBaseOps PlainTile := {|
  tb_getLevel t := tid_level (pt_id t);
  tb_getPatchIdx t := tid_patchIdx (pt_id t);
  tb_getTileId := pt_id;
  tb_getTypeId _ := "PlainTile"%string
|}.

Definition plainNode (level patchIdx : Z) : @TileNode PlainTile :=
  newTileNode (Some (mkPlainTile (mkTileId level patchIdx))).

(** A small tree: node 1 holds the level 0 tile and owns node 2 in slot 0;
    node 3 is a loaded node that is not attached yet. *)
Definition exampleTree : gmap positive (@TileNode PlainTile) :=
  <[1%positive := mkTileNode (Some (mkPlainTile (mkTileId 0 0))) None
                    (Array4 (Some 2%positive) None None None)]>
  (<[2%positive := mkTileNode (Some (mkPlainTile (mkTileId 1 0))) (Some 1%positive)
                    (Array4 None None None None)]>
  (<[3%positive := plainNode 1 1]> ∅)).

(** The example tree with node 2 held by slot 1 of node 1 as well. *)
Definition exampleShared : gmap positive (@TileNode PlainTile) :=
  <[1%positive := mkTileNode (Some (mkPlainTile (mkTileId 0 0))) None
                    (Array4 (Some 2%positive) (Some 2%positive) None None)]>
  exampleTree.

(** The example tree with a child pointer in node 2 that points to no
    node. *)
Definition exampleDangling : gmap positive (@TileNode PlainTile) :=
  <[2%positive := mkTileNode (Some (mkPlainTile (mkTileId 1 0))) (Some 1%positive)
                    (Array4 (Some 9%positive) None None None)]>
  exampleTree.

(** Two freshly loaded nodes: the level 0 tile and its child in quadrant 1. *)
Definition exampleLoaded : gmap positive (@TileNode PlainTile) :=
  <[1%positive := plainNode 0 0]> (<[2%positive := plainNode 1 1]> ∅).

(** An empty manager to which the child (node 2) was delivered before the
    parent (node 1). *)
Definition exampleManager : @TreeManager PlainTile :=
  onNodeLoaded 0 0 1%positive
    (onNodeLoaded 1 1 2%positive
       (mkTreeManager exampleLoaded ∅ [] ∅
          {[mkTileId 0 0; mkTileId 1 1]} [] [] 0)).

Definition exampleConfig : Config := mkConfig 10 3 100.

(** The scenario of section 8 of the specification: the tiles (1,1), (0,0)
    and (1,0) are delivered in this order, one per frame, with an update
    after each delivery. *)
Definition scenarioStart : @TreeManager PlainTile :=
  mkTreeManager
    (<[1%positive := plainNode 0 0]>
       (<[2%positive := plainNode 1 1]> (<[3%positive := plainNode 1 0]> ∅)))
    ∅ [] ∅ {[mkTileId 0 0; mkTileId 1 1; mkTileId 1 0]} [] [] 0.

Definition scenarioRun : result (@TreeManager PlainTile) :=
  s1 ← merge exampleConfig (onNodeLoaded 1 1 2%positive scenarioStart);
  s2 ← merge exampleConfig (onNodeLoaded 0 0 1%positive (setFrameCount 1 s1));
  merge exampleConfig (onNodeLoaded 1 0 3%positive (setFrameCount 2 s2)).

(** * Properties of the checked array access *)

Lemma array_at_in_range {A} (a : array4 A) (i : Z) :
  0 ≤ i ≤ 3 → ∃ v, array_at a i = Ok v.
Proof.
  intros Hi. unfold array_at. repeat case_decide; eauto. lia.
Qed.

Lemma array_at_Ok {A} (a : array4 A) (i : Z) (v : A) :
  array_at a i = Ok v → 0 ≤ i ≤ 3.
Proof.
  unfold array_at. repeat case_decide; intros; simplify_eq; lia.
Qed.

Lemma array_at_not_OutOfRange {A} (a : array4 A) (i : Z) :
  0 ≤ i ≤ 3 → array_at a i ≠ OutOfRange.
Proof.
  intros Hi. destruct (array_at_in_range a i Hi) as [v ->]. discriminate.
Qed.

Lemma array_at_OutOfRange {A} (a : array4 A) (i : Z) :
  ¬ 0 ≤ i ≤ 3 → array_at a i = OutOfRange.
Proof.
  intros Hi. unfold array_at. repeat case_decide; try lia. reflexivity.
Qed.

Lemma array_set_in_range {A} (a : array4 A) (i : Z) (v : A) :
  0 ≤ i ≤ 3 → ∃ a', array_set a i v = Ok a'.
Proof.
  intros Hi. unfold array_set. repeat case_decide; eauto. lia.
Qed.

Lemma array_at_set_eq {A} (a a' : array4 A) (i : Z) (v : A) :
  array_set a i v = Ok a' → array_at a' i = Ok v.
Proof.
  unfold array_set, array_at.
  repeat case_decide; intros; simplify_eq; reflexivity.
Qed.

Lemma array_at_set_ne {A} (a a' : array4 A) (i j : Z) (v : A) :
  array_set a i v = Ok a' → j ≠ i → array_at a' j = array_at a j.
Proof.
  unfold array_set, array_at.
  repeat case_decide; intros; simplify_eq; try reflexivity; lia.
Qed.

Lemma array_set_same {A} (a : array4 A) (i : Z) (v : A) :
  array_at a i = Ok v → array_set a i v = Ok a.
Proof.
  destruct a. unfold array_set, array_at; simpl.
  repeat case_decide; intros; simplify_eq; reflexivity.
Qed.

(** * Properties of TileNode *)

Section TileNodeFacts.
Context {TileBase : Type} `{!TileBaseOps TileBase}.

Abbreviation heap := (gmap ptr (@TileNode TileBase)) (only parsing).

Implicit Types (h : gmap positive (@TileNode TileBase)) (n : @TileNode TileBase).

Lemma deref_Ok h p n : deref h p = Ok n ↔ h !! p = Some n.
Proof. unfold deref. destruct (h !! p); split; intros; simplify_eq; done. Qed.

Lemma deref_live h p n : h !! p = Some n → deref h p = Ok n.
Proof. apply deref_Ok. Qed.

Lemma bind_Ok {A B} (f : A → result B) (r : result A) (b : B) :
  r ≫= f = Ok b ↔ ∃ a, r = Ok a ∧ f a = Ok b.
Proof.
  destruct r; simpl; split; intros; try discriminate; eauto.
  - destruct H as (a' & Ha & Hf). by simplify_eq.
  - destruct H as (a' & Ha & Hf). discriminate.
  - destruct H as (a' & Ha & Hf). discriminate.
Qed.

Lemma getChild_Ok h this i c :
  getChild this i h = Ok c ↔ ∃ n, h !! this = Some n ∧ array_at (mChildren n) i = Ok c.
Proof.
  unfold getChild. rewrite bind_Ok. setoid_rewrite deref_Ok. done.
Qed.

Lemma getParent_Ok h this p :
  getParent this h = Ok p ↔ ∃ n, h !! this = Some n ∧ mParent n = p.
Proof.
  unfold getParent. rewrite bind_Ok. setoid_rewrite deref_Ok.
  split; intros (n & ? & ?); exists n; split; congruence.
Qed.

Lemma setParent_Ok h this parent h' :
  setParent this parent h = Ok h' ↔
  ∃ n, h !! this = Some n ∧
       h' = <[this := mkTileNode (mTile n) parent (mChildren n)]> h.
Proof.
  unfold setParent. rewrite bind_Ok. setoid_rewrite deref_Ok.
  split; intros (n & ? & ?); exists n; split; congruence.
Qed.

Lemma exchangeSlot_Ok h this i v h' old :
  exchangeSlot this i v h = Ok (h', old) ↔
  ∃ n a, h !! this = Some n ∧ array_at (mChildren n) i = Ok old ∧
         array_set (mChildren n) i v = Ok a ∧
         h' = <[this := mkTileNode (mTile n) (mParent n) a]> h.
Proof.
  unfold exchangeSlot. rewrite bind_Ok. setoid_rewrite deref_Ok.
  setoid_rewrite bind_Ok. setoid_rewrite bind_Ok.
  split.
  - intros (n & Hn & o & Ho & a & Ha & Heq). simplify_eq. eauto 10.
  - intros (n & a & Hn & Ho & Ha & ->). eauto 10.
Qed.

Lemma node_eta n : mkTileNode (mTile n) (mParent n) (mChildren n) = n.
Proof. by destruct n. Qed.

Lemma bind_not_OutOfRange {A B} (f : A → result B) (r : result A) :
  r ≠ OutOfRange → (∀ a, r = Ok a → f a ≠ OutOfRange) → r ≫= f ≠ OutOfRange.
Proof. destruct r; simpl; intros; eauto. Qed.

Lemma deref_not_OutOfRange h p : deref h p ≠ OutOfRange.
Proof. unfold deref. by destruct (h !! p). Qed.

Lemma setParent_not_OutOfRange h p q : setParent p q h ≠ OutOfRange.
Proof.
  unfold setParent. apply bind_not_OutOfRange; [apply deref_not_OutOfRange | done].
Qed.

Lemma getChild_not_OutOfRange h this i : 0 ≤ i ≤ 3 → getChild this i h ≠ OutOfRange.
Proof.
  intros Hi. unfold getChild.
  apply bind_not_OutOfRange; [apply deref_not_OutOfRange |].
  intros n _. by apply array_at_not_OutOfRange.
Qed.

Lemma unsetOldParent_not_OutOfRange h this i :
  0 ≤ i ≤ 3 → unsetOldParent this i h ≠ OutOfRange.
Proof.
  intros Hi. unfold unsetOldParent.
  apply bind_not_OutOfRange; [by apply getChild_not_OutOfRange |].
  intros [c|] _; [apply setParent_not_OutOfRange | done].
Qed.

Lemma exchangeSlot_not_OutOfRange h this i v :
  0 ≤ i ≤ 3 → exchangeSlot this i v h ≠ OutOfRange.
Proof.
  intros Hi. unfold exchangeSlot.
  apply bind_not_OutOfRange; [apply deref_not_OutOfRange |]. intros n _.
  apply bind_not_OutOfRange; [by apply array_at_not_OutOfRange |]. intros old _.
  destruct (array_set_in_range (mChildren n) i v Hi) as [a ->]. done.
Qed.

Lemma setNewParent_not_OutOfRange h this i :
  0 ≤ i ≤ 3 → setNewParent this i h ≠ OutOfRange.
Proof.
  intros Hi. unfold setNewParent.
  apply bind_not_OutOfRange; [by apply getChild_not_OutOfRange |].
  intros [c|] _; [apply setParent_not_OutOfRange | done].
Qed.

Lemma destroyRec_not_OutOfRange f p h : destroyRec f p h ≠ OutOfRange.
Proof.
  revert p h. induction f as [|f IH]; simpl; intros p h; [done |].
  destruct (deref h p) as [n| |] eqn:Hn; simpl;
    [| by apply deref_not_OutOfRange in Hn | done].
  generalize (delete p h).
  induction (reverse (childPtrs n)) as [|c cs IHcs]; simpl; intros h0; [done |].
  destruct (destroyRec f c h0) as [h1| |] eqn:H1; simpl;
    [apply IHcs | by apply IH in H1 | done].
Qed.

Lemma destroy_not_OutOfRange p h : destroy p h ≠ OutOfRange.
Proof. apply destroyRec_not_OutOfRange. Qed.

(** C6: with a child index between 0 and 3 none of [getChild], [setChild]
    and [releaseChild] takes the throwing branch of [std::array::at], and
    [getChild] on a live node returns a value. *)
Theorem child_access_in_range_never_throws h this i child :
  0 ≤ i ≤ 3 →
  getChild this i h ≠ OutOfRange ∧
  setChild this i child h ≠ OutOfRange ∧
  releaseChild this i h ≠ OutOfRange ∧
  (is_Some (h !! this) → is_Ok (getChild this i h)).
Proof.
  intros Hi. split_and!.
  - by apply getChild_not_OutOfRange.
  - unfold setChild.
    apply bind_not_OutOfRange; [by apply unsetOldParent_not_OutOfRange |].
    intros h1 _.
    apply bind_not_OutOfRange; [| intros; by apply setNewParent_not_OutOfRange].
    unfold resetSlot.
    apply bind_not_OutOfRange; [by apply exchangeSlot_not_OutOfRange |].
    intros [h2 [o|]] _; [apply destroy_not_OutOfRange | done].
  - unfold releaseChild.
    apply bind_not_OutOfRange; [by apply unsetOldParent_not_OutOfRange |].
    intros h1 _. by apply exchangeSlot_not_OutOfRange.
  - intros [n Hn]. destruct (array_at_in_range (mChildren n) i Hi) as [c Hc].
    exists c. apply getChild_Ok. eauto.
Qed.

(** Outside 0..3 the checked access does throw (on a live node). *)
Lemma getChild_out_of_range h this i :
  is_Some (h !! this) → ¬ 0 ≤ i ≤ 3 → getChild this i h = OutOfRange.
Proof.
  intros [n Hn] Hi. unfold getChild. rewrite (deref_live _ _ _ Hn). simpl.
  by apply array_at_OutOfRange.
Qed.

(** C10: on a node that holds a tile the four accessors return the values of
    that tile; on a node whose payload is null, in particular after
    [releaseTile], each of them dereferences a null pointer. *)
Theorem accessors_defined_while_tile_present h this n :
  h !! this = Some n →
  (∀ t, mTile n = Some t →
     getLevel this h = Ok (tb_getLevel t) ∧
     getPatchIdx this h = Ok (tb_getPatchIdx t) ∧
     getTileId this h = Ok (tb_getTileId t) ∧
     getTileTypeId this h = Ok (tb_getTypeId t)) ∧
  (mTile n = None →
     getLevel this h = Undefined ∧ getPatchIdx this h = Undefined ∧
     getTileId this h = Undefined ∧ getTileTypeId this h = Undefined) ∧
  (∃ h', releaseTile this h = Ok (h', mTile n) ∧
     getLevel this h' = Undefined ∧ getPatchIdx this h' = Undefined ∧
     getTileId this h' = Undefined ∧ getTileTypeId this h' = Undefined).
Proof.
  intros Hn. split_and!.
  - intros t Ht.
    unfold getLevel, getPatchIdx, getTileId, getTileTypeId, derefTile.
    rewrite (deref_live _ _ _ Hn). simpl. rewrite Ht. done.
  - intros Ht.
    unfold getLevel, getPatchIdx, getTileId, getTileTypeId, derefTile.
    rewrite (deref_live _ _ _ Hn). simpl. rewrite Ht. done.
  - eexists. unfold releaseTile. rewrite (deref_live _ _ _ Hn). simpl.
    split; [reflexivity |].
    unfold getLevel, getPatchIdx, getTileId, getTileTypeId, derefTile, deref.
    rewrite lookup_insert_eq. done.
Qed.

(** C7: [setTile] and [releaseTile] succeed on a live node and change nothing
    but its payload: for every node of the store the parent back-reference
    and the four child slots read as before. *)
Theorem tile_swap_keeps_tree_position h this tile :
  is_Some (h !! this) →
  ∃ h1 h2 old,
    setTile this tile h = Ok h1 ∧ getTile this h1 = Ok tile ∧
    releaseTile this h = Ok (h2, old) ∧ getTile this h = Ok old ∧
    getTile this h2 = Ok None ∧
    ∀ k, getParent k h1 = getParent k h ∧ getParent k h2 = getParent k h ∧
         (∀ i, getChild k i h1 = getChild k i h ∧ getChild k i h2 = getChild k i h) ∧
         (k ≠ this → h1 !! k = h !! k ∧ h2 !! k = h !! k).
Proof.
  intros [n Hn]. do 3 eexists.
  unfold setTile, releaseTile, getTile. rewrite (deref_live _ _ _ Hn). simpl.
  split_and!; try reflexivity.
  - unfold deref. by rewrite lookup_insert_eq.
  - unfold deref. by rewrite lookup_insert_eq.
  - intros k. unfold getParent, getChild, deref.
    destruct (decide (k = this)) as [->|Hk].
    + rewrite !lookup_insert_eq, Hn. simpl. split_and!; try done. 
    + rewrite !lookup_insert_ne by done. split_and!; done.
Qed.

(** C5: [isRefined] answers [true] exactly when the four children are all
    non-null. *)
Theorem isRefined_iff_four_children h node :
  is_Some (h !! node) →
  ∃ b, isRefined node h = Ok b ∧
       (b = true ↔
        (∃ a, getChild node 0 h = Ok (Some a)) ∧
        (∃ a, getChild node 1 h = Ok (Some a)) ∧
        (∃ a, getChild node 2 h = Ok (Some a)) ∧
        (∃ a, getChild node 3 h = Ok (Some a))).
Proof.
  intros [n Hn]. unfold isRefined, getChild. rewrite (deref_live _ _ _ Hn).
  destruct n as [t p [[a|] [b|] [c|] [d|]]]; simpl; eexists;
    (split; [reflexivity |]); split;
    try discriminate; try (intros; split_and!; eauto; fail);
    intros ([? ?] & [? ?] & [? ?] & [? ?]); first [done | discriminate].
Qed.

(** Writing back what a slot holds changes nothing. *)
Lemma exchangeSlot_same h this i v :
  getChild this i h = Ok v → exchangeSlot this i v h = Ok (h, v).
Proof.
  intros (n & Hn & Hat)%getChild_Ok.
  apply exchangeSlot_Ok. exists n, (mChildren n). split_and!; try done.
  - by apply array_set_same.
  - rewrite node_eta. by rewrite insert_id.
Qed.

(** C9: releasing an empty slot returns null and leaves the whole store, so
    in particular every child slot and every parent back-reference, as it
    was. *)
Theorem releaseChild_empty_slot h this i :
  getChild this i h = Ok None →
  releaseChild this i h = Ok (h, None).
Proof.
  intros Hc. unfold releaseChild, unsetOldParent.
  rewrite Hc. simpl.
  by apply exchangeSlot_same.
Qed.

(** C4: [releaseChild] hands back the child held in the slot, with its parent
    back-reference null, and leaves the slot empty; the other slots of the
    node are not touched. *)
Theorem releaseChild_returns_detached_child h this i c :
  getChild this i h = Ok c →
  (∀ cp, c = Some cp → is_Some (h !! cp)) →
  ∃ h', releaseChild this i h = Ok (h', c) ∧
        getChild this i h' = Ok None ∧
        (∀ cp, c = Some cp → getParent cp h' = Ok None) ∧
        (∀ j, j ≠ i → getChild this j h' = getChild this j h).
Proof.
  intros Hc Hlive.
  destruct c as [cp|]; last first.
  { exists h. unfold releaseChild, unsetOldParent. rewrite Hc. simpl.
    rewrite exchangeSlot_same by done. split_and!; try done. }
  destruct (Hlive cp eq_refl) as [nc Hnc].
  pose proof Hc as Hc'. apply getChild_Ok in Hc' as (n & Hn & Hat).
  pose proof (array_at_Ok _ _ _ Hat) as Hi.
  destruct (array_set_in_range (mChildren n) i None Hi) as [a Ha].
  set (h1 := <[cp := mkTileNode (mTile nc) None (mChildren nc)]> h).
  assert (∃ n1, h1 !! this = Some n1 ∧ mChildren n1 = mChildren n ∧
                (cp = this → mParent n1 = None)) as (n1 & Hn1 & Hch & Hpar).
  { subst h1. destruct (decide (cp = this)) as [->|Hne].
    - rewrite lookup_insert_eq. eexists; split_and!; try done. simpl. congruence.
    - rewrite lookup_insert_ne by done. eexists; split_and!; done. }
  exists (<[this := mkTileNode (mTile n1) (mParent n1) a]> h1).
  split_and!.
  - unfold releaseChild, unsetOldParent. rewrite Hc. simpl.
    unfold setParent. rewrite (deref_live _ _ _ Hnc). simpl. fold h1.
    apply exchangeSlot_Ok. exists n1, a. rewrite Hch. done.
  - apply getChild_Ok. eexists. rewrite lookup_insert_eq. split; [done |].
    simpl. by eapply array_at_set_eq.
  - intros ? [= <-]. apply getParent_Ok.
    destruct (decide (cp = this)) as [->|Hne].
    + eexists. rewrite lookup_insert_eq. split; [done |]. simpl. by apply Hpar.
    + eexists. rewrite lookup_insert_ne by done. subst h1.
      rewrite lookup_insert_eq. done.
  - intros j Hj. unfold getChild, deref. rewrite lookup_insert_eq, Hn. simpl.
    by eapply array_at_set_ne.
Qed.

(** ** What [delete] frees *)

Lemma elem_of_childPtrs n c :
  c ∈ childPtrs n ↔ ∃ i, array_at (mChildren n) i = Ok (Some c).
Proof.
  unfold childPtrs. rewrite list_elem_of_omap. split.
  - intros (x & Hx & Hid). simpl in Hid. subst x.
    rewrite !elem_of_cons, elem_of_nil in Hx.
    destruct Hx as [Hx|[Hx|[Hx|[Hx|[]]]]];
      [exists 0 | exists 1 | exists 2 | exists 3]; unfold array_at; simpl;
      by rewrite Hx.
  - intros (i & Hi). exists (Some c). split; [| done].
    unfold array_at in Hi. rewrite !elem_of_cons.
    repeat case_decide; simplify_eq; rewrite <- ?Hi; auto.
Qed.

Lemma elem_of_liveChildren h p c :
  c ∈ liveChildren h p ↔
  ∃ n i, h !! p = Some n ∧ array_at (mChildren n) i = Ok (Some c) ∧ is_Some (h !! c).
Proof.
  unfold liveChildren. destruct (h !! p) as [n|] eqn:Hp.
  - rewrite elem_of_list_to_set, list_elem_of_filter, elem_of_childPtrs.
    split.
    + intros (Hl & i & Hi). eauto.
    + intros (n' & i & ? & Hi & Hl). simplify_eq. eauto.
  - split; [set_solver |]. intros (n & i & ? & _). discriminate.
Qed.

Lemma liveChildren_dom h p : liveChildren h p ⊆ dom h.
Proof.
  intros c (n & i & _ & _ & Hl)%elem_of_liveChildren. by apply elem_of_dom.
Qed.

Lemma elem_of_expand h X c :
  c ∈ expand h X ↔ c ∈ X ∨ ∃ p, p ∈ X ∧ c ∈ liveChildren h p.
Proof.
  unfold expand. rewrite elem_of_union, elem_of_set_bind. naive_solver.
Qed.

Lemma expand_incl h X : X ⊆ expand h X.
Proof. intros c Hc. apply elem_of_expand. auto. Qed.

Lemma expand_dom h X : X ⊆ dom h → expand h X ⊆ dom h.
Proof.
  intros HX c [Hc|(p & _ & Hc)]%elem_of_expand; [by apply HX |].
  by eapply liveChildren_dom.
Qed.

Lemma iter_expand_incl h k X : X ⊆ Nat.iter k (expand h) X.
Proof.
  induction k as [|k IH]; simpl; [done |].
  etrans; [apply IH | apply expand_incl].
Qed.

Lemma iter_expand_dom h k X : X ⊆ dom h → Nat.iter k (expand h) X ⊆ dom h.
Proof.
  intros HX. induction k as [|k IH]; simpl; [done |]. by apply expand_dom.
Qed.

Lemma iter_expand_fix h k X : expand h X = X → Nat.iter k (expand h) X = X.
Proof. intros HX. induction k as [|k IH]; simpl; [done |]. by rewrite IH. Qed.

(** Each round either finds nothing new, or the set has grown by one more
    node. *)
Lemma iter_expand_grows h X k :
  expand h (Nat.iter k (expand h) X) = Nat.iter k (expand h) X ∨
  (size X + k < size (Nat.iter (S k) (expand h) X))%nat.
Proof.
  induction k as [|k IH].
  - simpl. destruct (decide (expand h X = X)) as [|Hne]; [by left | right].
    rewrite Nat.add_0_r. apply subset_size.
    split; [apply expand_incl |]. intros Hsub. apply Hne.
    apply set_eq. intros c. split; [apply Hsub | apply expand_incl].
  - destruct IH as [IH|IH].
    + left. simpl. by rewrite !IH.
    + set (Y := Nat.iter (S k) (expand h) X) in *.
      change (Nat.iter (S (S k)) (expand h) X) with (expand h Y).
      destruct (decide (expand h Y = Y)) as [|Hne]; [by left | right].
      assert (size Y < size (expand h Y))%nat; [| lia].
      apply subset_size. split; [apply expand_incl |]. intros Hsub. apply Hne.
      apply set_eq. intros c. split; [apply Hsub | apply expand_incl].
Qed.

(** The freed set is closed under live children. *)
Lemma owned_closed h p : expand h (owned h p) = owned h p.
Proof.
  unfold owned. destruct (h !! p) as [n|] eqn:Hp.
  - destruct (iter_expand_grows h {[p]} (size h)) as [Hfix|Hgrow]; [done |].
    exfalso.
    assert (Nat.iter (S (size h)) (expand h) {[p]} ⊆ dom h) as Hsub.
    { apply iter_expand_dom. apply singleton_subseteq_l, elem_of_dom. eauto. }
    apply subseteq_size in Hsub. rewrite size_dom in Hsub.
    rewrite size_singleton in Hgrow. lia.
  - assert (expand h {[p]} = ({[p]} : gset positive)) as Hfix.
    { apply set_eq. intros c. rewrite elem_of_expand. split; [| auto].
      intros [Hc|(q & Hq & Hc)]; [done |].
      apply elem_of_singleton in Hq as ->.
      apply elem_of_liveChildren in Hc as (n & i & Hn & _). congruence. }
    rewrite (iter_expand_fix _ _ _ Hfix). done.
Qed.

Lemma owned_self h p : p ∈ owned h p.
Proof. unfold owned. apply iter_expand_incl. set_solver. Qed.

Lemma owned_child h p q n i c :
  q ∈ owned h p → h !! q = Some n → array_at (mChildren n) i = Ok (Some c) →
  is_Some (h !! c) → c ∈ owned h p.
Proof.
  intros Hq Hn Hi Hc. rewrite <- owned_closed. apply elem_of_expand. right.
  exists q. split; [done |]. apply elem_of_liveChildren. eauto.
Qed.

(** A node without live children owns only itself. *)
Lemma owned_leaf h p : liveChildren h p = ∅ → owned h p = {[p]}.
Proof.
  intros Hl. unfold owned. apply iter_expand_fix.
  apply set_eq. intros c. rewrite elem_of_expand. split; [| auto].
  intros [Hc|(q & Hq & Hc)]; [done |].
  apply elem_of_singleton in Hq as ->. rewrite Hl in Hc. set_solver.
Qed.

Lemma sweep_lookup h p k :
  sweep p h !! k = if decide (k ∈ owned h p) then None else h !! k.
Proof.
  unfold sweep. case_decide as Hk.
  - apply map_lookup_filter_None. right. intros x _. simpl. auto.
  - destruct (h !! k) as [x|] eqn:Hx.
    + apply map_lookup_filter_Some. done.
    + apply map_lookup_filter_None. by left.
Qed.

Lemma sweep_lookup_Some h p k n :
  sweep p h !! k = Some n ↔ h !! k = Some n ∧ k ∉ owned h p.
Proof.
  rewrite sweep_lookup. case_decide; split; try done; intros []; done.
Qed.

Lemma sweep_leaf h p : liveChildren h p = ∅ → sweep p h = delete p h.
Proof.
  intros Hl. apply map_eq. intros k. rewrite sweep_lookup, owned_leaf by done.
  case_decide as Hk.
  - apply elem_of_singleton in Hk as ->. by rewrite lookup_delete_eq.
  - rewrite lookup_delete_ne; [done |]. set_solver.
Qed.

(** The freed set only depends on the child slots of the nodes it visits. *)
Lemma iter_expand_ext h h' k X :
  (∀ q, q ∈ Nat.iter k (expand h) X → liveChildren h' q = liveChildren h q) →
  Nat.iter k (expand h') X = Nat.iter k (expand h) X.
Proof.
  induction k as [|k IH]; simpl; intros Hext; [done |].
  rewrite IH by (intros q Hq; apply Hext; by apply expand_incl).
  apply set_eq. intros c. rewrite !elem_of_expand.
  split; (intros [Hc|(q & Hq & Hc)]; [by left | right; exists q; split; [done |]]).
  - rewrite <- Hext; [done |]. by apply expand_incl.
  - rewrite Hext; [done |]. by apply expand_incl.
Qed.

Lemma owned_ext h h' p :
  size h' = size h →
  (∀ q, q ∈ owned h p → liveChildren h' q = liveChildren h q) →
  owned h' p = owned h p.
Proof. intros Hs Hext. unfold owned. rewrite Hs. by apply iter_expand_ext. Qed.

(** A freed node other than the deleted one is a child of a freed node. *)
Lemma iter_expand_inv h k X x :
  x ∈ Nat.iter k (expand h) X →
  x ∈ X ∨ ∃ e j, e ∈ Nat.iter k (expand h) X ∧ getChild e j h = Ok (Some x).
Proof.
  induction k as [|k IH]; simpl; [by left |].
  intros [Hx|(e & He & Hx)]%elem_of_expand.
  - destruct (IH Hx) as [?|(e & j & He & Hc)]; [by left | right].
    exists e, j. split; [by apply expand_incl | done].
  - right. apply elem_of_liveChildren in Hx as (n & j & Hn & Hj & _).
    exists e, j. split; [by apply expand_incl |]. apply getChild_Ok. eauto.
Qed.

Lemma owned_inv h p x :
  x ∈ owned h p → x = p ∨ ∃ e j, e ∈ owned h p ∧ getChild e j h = Ok (Some x).
Proof.
  intros [Hx|H]%iter_expand_inv; [left; set_solver | by right].
Qed.

(** In a store with consistent ownership the node in a slot sits in no other
    slot. *)
Lemma sole_slot h p q p' q' x :
  ownersAgree h → noSharedSlot h →
  getChild p q h = Ok (Some x) → getChild p' q' h = Ok (Some x) →
  (p', q') = (p, q).
Proof.
  intros Hown Hslot H1 H2.
  pose proof (Hown _ _ _ H1) as Hp1. pose proof (Hown _ _ _ H2) as Hp2.
  assert (p' = p) as -> by congruence. f_equal. by eapply Hslot.
Qed.

(** ** What a defined [delete] does to the store *)

(** The owned set is the least set that holds the deleted node and is closed
    under live children. *)
Lemma owned_ind h p (P : positive → Prop) :
  P p →
  (∀ d j c, P d → getChild d j h = Ok (Some c) → is_Some (h !! c) → P c) →
  ∀ x, x ∈ owned h p → P x.
Proof.
  intros Hp Hstep. unfold owned. generalize (size h). intros k.
  induction k as [|k IH]; simpl; intros x Hx.
  - by apply elem_of_singleton in Hx as ->.
  - apply elem_of_expand in Hx as [Hx|(q & Hq & Hx)]; [by apply IH |].
    apply elem_of_liveChildren in Hx as (n & i & Hn & Hi & Hl).
    apply (Hstep q i x); [by apply IH | apply getChild_Ok; eauto | done].
Qed.


Lemma owned_mono h h' p : h' ⊆ h → owned h' p ⊆ owned h p.
Proof.
  intros Hsub x. apply (owned_ind h' p (λ x, x ∈ owned h p)); [apply owned_self |].
  intros d j c Hd (n & Hn & Hat)%getChild_Ok [nc Hc].
  eapply owned_child; [done | by eapply lookup_weaken | done |].
  exists nc. by eapply lookup_weaken.
Qed.

Lemma owned_trans h p r : r ∈ owned h p → owned h r ⊆ owned h p.
Proof.
  intros Hr x. apply (owned_ind h r (λ x, x ∈ owned h p)); [done |].
  intros d j c Hd (n & Hn & Hat)%getChild_Ok Hc. by eapply owned_child.
Qed.

Lemma freed_owned h p h' : freed h [p] h' → ∀ x, x ∈ owned h p → h' !! x = None.
Proof.
  intros (Hsub & Hroot & _ & Hcl). apply owned_ind.
  - apply Hroot. by apply list_elem_of_singleton.
  - intros d j c Hd (n & Hn & Hat)%getChild_Ok _. by eapply Hcl.
Qed.

Lemma freed_sweep h p h' : freed h [p] h' → h' = sweep p h.
Proof.
  intros Hf. pose proof Hf as (Hsub & _ & Hgen & _).
  apply map_eq. intros k. rewrite sweep_lookup. case_decide as Hk.
  - by eapply freed_owned.
  - destruct (h' !! k) as [n'|] eqn:Hn'.
    + symmetry. by eapply lookup_weaken.
    + destruct (h !! k) as [n|] eqn:Hn; [| done].
      destruct (Hgen k) as (r & Hr & Hkr); [by rewrite Hn | done |].
      by apply list_elem_of_singleton in Hr as ->.
Qed.

Lemma freed_nil h : freed h [] h.
Proof.
  split_and!; [done | by intros r ?%elem_of_nil | |].
  - intros k [n Hn] Hk. congruence.
  - intros d nd j c Hd Hk. congruence.
Qed.

Lemma freed_cons h c cs h1 h' :
  freed h [c] h1 → freed h1 cs h' → freed h (c :: cs) h'.
Proof.
  intros (Hs1 & Hr1 & Hg1 & Hc1) (Hs2 & Hr2 & Hg2 & Hc2). split_and!.
  - by etrans.
  - intros r [->|Hr]%elem_of_cons.
    + destruct (Hr1 c) as [Hl Hn]; [by apply list_elem_of_singleton |].
      split; [done |]. by eapply lookup_weaken_None.
    + destruct (Hr2 r Hr) as [Hl Hn]. split; [| done].
      by eapply lookup_weaken_is_Some.
  - intros k Hk Hn. destruct (h1 !! k) as [n1|] eqn:Hk1.
    + destruct (Hg2 k) as (r & Hr & Hkr); [by rewrite Hk1 | done |].
      exists r. split; [by right |]. by eapply owned_mono.
    + destruct (Hg1 k Hk Hk1) as (r & Hr & Hkr).
      apply list_elem_of_singleton in Hr as ->. exists c. split; [by left | done].
  - intros d nd j x Hd Hn Hat. destruct (h1 !! d) as [n1|] eqn:Hd1.
    + assert (n1 = nd) as ->.
      { pose proof (lookup_weaken _ _ _ _ Hd1 Hs1). congruence. }
      by eapply Hc2.
    + eapply lookup_weaken_None; [| done]. by eapply Hc1.
Qed.

Lemma foldM_freed f cs :
  (∀ p h h', destroyRec f p h = Ok h' → freed h [p] h') →
  ∀ h h', foldM (destroyRec f) cs h = Ok h' → freed h cs h'.
Proof.
  intros IH. induction cs as [|c cs IHcs]; simpl; intros h h' H.
  - injection H as <-. apply freed_nil.
  - apply bind_Ok in H as (h1 & H1 & H2).
    eapply freed_cons; [by apply IH | by apply IHcs].
Qed.

(** A [delete] that is defined frees the node, everything it owns, and
    nothing else. *)
Lemma destroyRec_freed f p h h' : destroyRec f p h = Ok h' → freed h [p] h'.
Proof.
  revert p h h'. induction f as [|f IH]; simpl; intros p h h' H; [discriminate |].
  apply bind_Ok in H as (n & Hn%deref_Ok & H).
  apply (foldM_freed f _ IH) in H as (Hsub & Hroot & Hgen & Hcl).
  assert (delete p h ⊆ h) as Hdel by apply delete_subseteq.
  split_and!.
  - by etrans.
  - intros r ->%list_elem_of_singleton. split; [by rewrite Hn |].
    eapply lookup_weaken_None; [apply lookup_delete_eq | done].
  - intros k Hk Hn'. exists p. split; [by apply list_elem_of_singleton |].
    destruct (decide (k = p)) as [->|Hkp]; [apply owned_self |].
    destruct (Hgen k) as (r & Hr & Hkr); [by rewrite lookup_delete_ne | done |].
    destruct (Hroot r Hr) as [Hlr _].
    rewrite elem_of_reverse in Hr. apply elem_of_childPtrs in Hr as (i & Hi).
    apply (owned_trans h p r).
    + eapply owned_child; [apply owned_self | done | done |].
      by eapply lookup_weaken_is_Some.
    + by eapply owned_mono.
  - intros d nd j c Hd Hn' Hat. destruct (decide (d = p)) as [->|Hdp].
    + simplify_eq. apply Hroot. rewrite elem_of_reverse.
      apply elem_of_childPtrs. eauto.
    + eapply Hcl; [by rewrite lookup_delete_ne | done | done].
Qed.

Lemma destroy_Ok p h h' : destroy p h = Ok h' → h' = sweep p h.
Proof. intros H. by apply freed_sweep, (destroyRec_freed _ _ _ _ H). Qed.

Lemma destroyRec_size f p h h' : destroyRec f p h = Ok h' → (size h' < size h)%nat.
Proof.
  intros (Hsub & Hroot & _)%destroyRec_freed.
  destruct (Hroot p) as [[n Hn] Hp]; [by apply list_elem_of_singleton |].
  apply map_subset_size. split; [done |]. intros Hsub'.
  pose proof (lookup_weaken _ _ _ _ Hn Hsub'). congruence.
Qed.

Lemma size_delete_live h p n : h !! p = Some n → S (size (delete p h)) = size h.
Proof.
  intros Hn. rewrite map_size_delete, Hn.
  assert (size h ≠ 0%nat) by (apply (map_size_ne_0_lookup_2 _ p); eauto).
  lia.
Qed.

(** The recursion bound does not decide the result: every bound above the
    size of the store gives the same one. *)
Lemma destroyRec_fuel f f' p h :
  (size h < f)%nat → (size h < f')%nat → destroyRec f p h = destroyRec f' p h.
Proof.
  revert f' p h. induction f as [|f IH]; intros f' p h Hf Hf'; [lia |].
  destruct f' as [|f']; [lia |]. simpl.
  destruct (deref h p) as [n| |] eqn:Hn; simpl; [| done | done].
  apply deref_Ok in Hn.
  assert (size (delete p h) < f ∧ size (delete p h) < f')%nat as Hsz.
  { pose proof (size_delete_live _ _ _ Hn). lia. }
  revert Hsz. generalize (delete p h).
  induction (reverse (childPtrs n)) as [|c cs IHcs]; simpl; intros h0 [H1 H2];
    [done |].
  rewrite (IH f' c h0) by done.
  destruct (destroyRec f' c h0) as [h1| |] eqn:Hc; simpl; [| done | done].
  apply IHcs. apply destroyRec_size in Hc. lia.
Qed.

Lemma destroy_fuel f p h : (size h < f)%nat → destroyRec f p h = destroy p h.
Proof. intros Hf. apply destroyRec_fuel; [done | lia]. Qed.

(** A node without children is simply taken out of the store. *)
Lemma destroy_leaf h p n :
  h !! p = Some n → childPtrs n = [] → destroy p h = Ok (delete p h).
Proof.
  intros Hn Hc. unfold destroy. simpl. rewrite (deref_live _ _ _ Hn). simpl.
  by rewrite Hc.
Qed.

(** *** When [delete] is defined *)





(** ** Effect of the single statements on the store *)

Lemma setParent_lookup h p q h' k :
  setParent p q h = Ok h' →
  h' !! k = if decide (k = p)
            then (λ n, mkTileNode (mTile n) q (mChildren n)) <$> h !! k
            else h !! k.
Proof.
  intros (n & Hn & ->)%setParent_Ok. case_decide as Hk.
  - subst k. by rewrite lookup_insert_eq, Hn.
  - by rewrite lookup_insert_ne.
Qed.

Lemma setParent_children h p q h' k :
  setParent p q h = Ok h' → mChildren <$> h' !! k = mChildren <$> h !! k.
Proof.
  intros H. rewrite (setParent_lookup _ _ _ _ k H).
  case_decide; [| done]. by destruct (h !! k).
Qed.


Lemma getChild_children h h' k i :
  mChildren <$> h' !! k = mChildren <$> h !! k → getChild k i h' = getChild k i h.
Proof.
  unfold getChild, deref. destruct (h' !! k), (h !! k); simpl; intros; simplify_eq;
    try done. congruence.
Qed.

Lemma exchangeSlot_lookup h this i v h' old k :
  exchangeSlot this i v h = Ok (h', old) → k ≠ this → h' !! k = h !! k.
Proof.
  intros (n & a & Hn & Ho & Ha & ->)%exchangeSlot_Ok Hk.
  by rewrite lookup_insert_ne.
Qed.

Lemma exchangeSlot_getChild h this i v h' old :
  exchangeSlot this i v h = Ok (h', old) →
  getChild this i h = Ok old ∧ getChild this i h' = Ok v ∧
  getParent this h' = getParent this h ∧
  ∀ j, j ≠ i → getChild this j h' = getChild this j h.
Proof.
  intros (n & a & Hn & Ho & Ha & ->)%exchangeSlot_Ok.
  unfold getChild, getParent, deref. rewrite !lookup_insert_eq, Hn. simpl.
  split_and!; try done.
  - by eapply array_at_set_eq.
  - intros j Hj. by eapply array_at_set_ne.
Qed.

Lemma unsetOldParent_Ok h this i h1 :
  unsetOldParent this i h = Ok h1 →
  ∃ old, getChild this i h = Ok old ∧
         match old with
         | Some o => setParent o None h = Ok h1
         | None => h1 = h
         end.
Proof.
  unfold unsetOldParent. intros (old & Hold & H)%bind_Ok. exists old.
  split; [done |]. destruct old; [done | congruence].
Qed.

Lemma unsetOldParent_children h this i h1 k :
  unsetOldParent this i h = Ok h1 → mChildren <$> h1 !! k = mChildren <$> h !! k.
Proof.
  intros (old & _ & H)%unsetOldParent_Ok. destruct old; [| by subst].
  by eapply setParent_children.
Qed.

Lemma setParent_tile h p q h' k :
  setParent p q h = Ok h' → mTile <$> h' !! k = mTile <$> h !! k.
Proof.
  intros H. rewrite (setParent_lookup _ _ _ _ k H).
  case_decide; [| done]. by destruct (h !! k).
Qed.

Lemma unsetOldParent_tile h this i h1 k :
  unsetOldParent this i h = Ok h1 → mTile <$> h1 !! k = mTile <$> h !! k.
Proof.
  intros (old & _ & H)%unsetOldParent_Ok. destruct old; [| by subst].
  by eapply setParent_tile.
Qed.

Lemma exchangeSlot_tile h this i v h' old k :
  exchangeSlot this i v h = Ok (h', old) → mTile <$> h' !! k = mTile <$> h !! k.
Proof.
  intros Hex. destruct (decide (k = this)) as [->|Hk].
  - apply exchangeSlot_Ok in Hex as (n & a & Hn & _ & _ & ->).
    by rewrite lookup_insert_eq, Hn.
  - by rewrite (exchangeSlot_lookup _ _ _ _ _ _ k Hex Hk).
Qed.

Lemma getTile_tile h h' k :
  mTile <$> h' !! k = mTile <$> h !! k → getTile k h' = getTile k h.
Proof.
  unfold getTile, deref. destruct (h' !! k), (h !! k); simpl; intros; simplify_eq;
    try done. congruence.
Qed.

Lemma getTileId_tile h h' k :
  mTile <$> h' !! k = mTile <$> h !! k → getTileId k h' = getTileId k h.
Proof.
  unfold getTileId, deref, derefTile.
  destruct (h' !! k) as [n'|], (h !! k) as [n|]; simpl; intros H;
    try discriminate H; [| done].
  injection H as H. by rewrite H.
Qed.

Lemma getTileId_sweep h o k id :
  getTileId k (sweep o h) = Ok id → getTileId k h = Ok id.
Proof.
  unfold getTileId, deref. rewrite sweep_lookup. by case_decide.
Qed.

(** ** The invariant is kept by every statement *)

Lemma noDangling_alt h :
  noDanglingBackRefs h ↔
  ∀ k nk p, h !! k = Some nk → mParent nk = Some p →
            ∃ np q, h !! p = Some np ∧ array_at (mChildren np) q = Ok (Some k).
Proof.
  unfold noDanglingBackRefs. split.
  - intros H k nk p Hk Hp.
    destruct (H k p) as (q & _ & Hq); [apply getParent_Ok; eauto |].
    apply getChild_Ok in Hq as (np & ? & ?). eauto.
  - intros H k p (nk & Hk & Hp)%getParent_Ok.
    destruct (H k nk p Hk Hp) as (np & q & Hnp & Hq). exists q.
    split; [by eapply array_at_Ok |]. apply getChild_Ok. eauto.
Qed.

Lemma noDangling_setParent_None h o h' :
  noDanglingBackRefs h → setParent o None h = Ok h' → noDanglingBackRefs h'.
Proof.
  rewrite !noDangling_alt. intros Hinv Hset k nk p Hk Hp.
  rewrite (setParent_lookup _ _ _ _ k Hset) in Hk.
  assert (∃ nk0, h !! k = Some nk0 ∧ mParent nk0 = Some p) as (nk0 & Hk0 & Hp0).
  { case_decide; [| eauto]. destruct (h !! k); simpl in Hk; simplify_eq. }
  destruct (Hinv k nk0 p Hk0 Hp0) as (np & q & Hnp & Hq).
  pose proof (setParent_children _ _ _ _ p Hset) as Hch. rewrite Hnp in Hch.
  destruct (h' !! p) as [np'|]; simplify_eq. simpl in Hch.
  exists np', q. split; [done |]. congruence.
Qed.

Lemma noDangling_unsetOldParent h this i h1 :
  noDanglingBackRefs h → unsetOldParent this i h = Ok h1 → noDanglingBackRefs h1.
Proof.
  intros Hinv (old & _ & H)%unsetOldParent_Ok. destruct old; [| by subst].
  by eapply noDangling_setParent_None.
Qed.

(** After [unsetOldParent] the node in the slot has no parent. *)
Lemma unsetOldParent_detached h this i h1 o :
  unsetOldParent this i h = Ok h1 → getChild this i h1 = Ok (Some o) →
  getParent o h1 = Ok None.
Proof.
  intros Hun Hslot.
  rewrite (getChild_children h h1) in Hslot
    by (by eapply unsetOldParent_children).
  apply unsetOldParent_Ok in Hun as (old & Hold & H).
  rewrite Hslot in Hold. simplify_eq.
  pose proof (setParent_lookup _ _ _ _ o H) as Hl. rewrite decide_True in Hl by done.
  apply setParent_Ok in H as (n & Hn & _). rewrite Hn in Hl.
  apply getParent_Ok. eauto.
Qed.

Lemma noDangling_exchangeSlot h this i v h' old :
  noDanglingBackRefs h → exchangeSlot this i v h = Ok (h', old) →
  (∀ o, old = Some o → getParent o h = Ok None) →
  noDanglingBackRefs h'.
Proof.
  intros Hinv Hex Hold k p Hp.
  pose proof (exchangeSlot_getChild _ _ _ _ _ _ Hex) as (Hgo & Hgv & Hgp & Hgj).
  assert (getParent k h = Ok (Some p)) as Hp0.
  { destruct (decide (k = this)) as [->|Hk]; [by rewrite <- Hgp |].
    unfold getParent, deref in *.
    by rewrite (exchangeSlot_lookup _ _ _ _ _ _ k Hex Hk) in Hp. }
  destruct (Hinv k p Hp0) as (q & Hq & Hc). exists q. split; [done |].
  destruct (decide (p = this)) as [->|Hpne].
  - destruct (decide (q = i)) as [->|Hqi]; [| by rewrite Hgj].
    rewrite Hgo in Hc. simplify_eq. rewrite (Hold k eq_refl) in Hp0. discriminate.
  - unfold getChild, deref in *.
    by rewrite (exchangeSlot_lookup _ _ _ _ _ _ p Hex Hpne).
Qed.

Lemma noDangling_sweep h o : noDanglingBackRefs h → noDanglingBackRefs (sweep o h).
Proof.
  rewrite !noDangling_alt. intros Hinv k nk p Hk Hp.
  apply sweep_lookup_Some in Hk as [Hk Hko].
  destruct (Hinv k nk p Hk Hp) as (np & q & Hnp & Hq).
  exists np, q. split; [| done]. apply sweep_lookup_Some. split; [done |].
  intros Hpo. apply Hko. eapply owned_child; eauto.
Qed.

Lemma noDangling_setNewParent h this i h' :
  noDanglingBackRefs h → setNewParent this i h = Ok h' → noDanglingBackRefs h'.
Proof.
  unfold setNewParent. intros Hinv (c & Hc & H)%bind_Ok.
  destruct c as [c|]; [| by simplify_eq].
  intros k p Hp.
  assert (∀ x j, getChild x j h' = getChild x j h) as Hch.
  { intros x j. apply getChild_children. by eapply setParent_children. }
  setoid_rewrite Hch.
  apply getParent_Ok in Hp as (nk & Hk & Hpk).
  rewrite (setParent_lookup _ _ _ _ k H) in Hk. case_decide as Hkc.
  - subst k. destruct (h !! c); simpl in Hk; simplify_eq. simpl in Hpk.
    simplify_eq. exists i. split; [| done]. apply getChild_Ok in Hc as (? & _ & Hat).
    by eapply array_at_Ok.
  - apply Hinv. apply getParent_Ok. eauto.
Qed.

Lemma noDangling_setChild h this i child h' :
  noDanglingBackRefs h → setChild this i child h = Ok h' → noDanglingBackRefs h'.
Proof.
  unfold setChild. intros Hinv (h1 & H1 & H)%bind_Ok.
  apply bind_Ok in H as (h2 & H2 & H3).
  eapply noDangling_setNewParent; [| done].
  unfold resetSlot in H2. apply bind_Ok in H2 as ([h1' old] & Hex & Hd).
  assert (noDanglingBackRefs h1') as Hinv1.
  { eapply noDangling_exchangeSlot; [by eapply noDangling_unsetOldParent | done |].
    intros o ->. eapply unsetOldParent_detached; [done |].
    by apply exchangeSlot_getChild in Hex as (? & _). }
  destruct old as [o|]; simplify_eq; [| done].
  apply destroy_Ok in Hd as ->. by apply noDangling_sweep.
Qed.

Lemma noDangling_releaseChild h this i h' c :
  noDanglingBackRefs h → releaseChild this i h = Ok (h', c) → noDanglingBackRefs h'.
Proof.
  unfold releaseChild. intros Hinv (h1 & H1 & Hex)%bind_Ok.
  eapply noDangling_exchangeSlot; [by eapply noDangling_unsetOldParent | done |].
  intros o ->. eapply unsetOldParent_detached; [done |].
  by apply exchangeSlot_getChild in Hex as (? & _).
Qed.

Lemma noDangling_runOp h op h' :
  noDanglingBackRefs h → runOp op h = Ok h' → noDanglingBackRefs h'.
Proof.
  destruct op as [this i child|this i]; simpl; intros Hinv H.
  - by eapply noDangling_setChild.
  - apply bind_Ok in H as ([h1 c] & Hr & ?). simplify_eq.
    by eapply noDangling_releaseChild.
Qed.

(** A store of nodes none of which has a parent satisfies the invariant. *)
Lemma noDangling_parentless h :
  map_Forall (λ _ n, mParent n = None) h → noDanglingBackRefs h.
Proof.
  intros Hall k p (n & Hn & Hp)%getParent_Ok.
  specialize (Hall k n Hn). simpl in Hall. congruence.
Qed.

(** ** The invariant with the slot fixed by the quadrant *)

Section OwnQuadrant.
Variable quadrantOf : TileId → Z.

Lemma ownQuadrant_setParent_None h o h' :
  ownQuadrantBackRefs quadrantOf h → setParent o None h = Ok h' → ownQuadrantBackRefs quadrantOf h'.
Proof.
  intros Hinv Hset k p id Hp Hid.
  apply getParent_Ok in Hp as (nk & Hk & Hpk).
  pose proof (setParent_lookup _ _ _ _ k Hset) as Hl. rewrite Hk in Hl.
  case_decide as Hko.
  - destruct (h !! k); simpl in Hl; simplify_eq.
  - rewrite (getTileId_tile h h' k) in Hid by (by eapply setParent_tile).
    rewrite (getChild_children h h') by (by eapply setParent_children).
    apply Hinv; [| done]. apply getParent_Ok. eauto.
Qed.

Lemma ownQuadrant_unsetOldParent h this i h1 :
  ownQuadrantBackRefs quadrantOf h → unsetOldParent this i h = Ok h1 → ownQuadrantBackRefs quadrantOf h1.
Proof.
  intros Hinv (old & _ & H)%unsetOldParent_Ok. destruct old; [| by subst].
  by eapply ownQuadrant_setParent_None.
Qed.

Lemma ownQuadrant_exchangeSlot h this i v h' old :
  ownQuadrantBackRefs quadrantOf h → exchangeSlot this i v h = Ok (h', old) →
  (∀ o, old = Some o → getParent o h = Ok None) →
  ownQuadrantBackRefs quadrantOf h'.
Proof.
  intros Hinv Hex Hold k p id Hp Hid.
  pose proof (exchangeSlot_getChild _ _ _ _ _ _ Hex) as (Hgo & Hgv & Hgp & Hgj).
  assert (getParent k h = Ok (Some p)) as Hp0.
  { destruct (decide (k = this)) as [->|Hk]; [by rewrite <- Hgp |].
    unfold getParent, deref in *.
    by rewrite (exchangeSlot_lookup _ _ _ _ _ _ k Hex Hk) in Hp. }
  rewrite (getTileId_tile h h' k) in Hid by (by eapply exchangeSlot_tile).
  pose proof (Hinv k p id Hp0 Hid) as Hc.
  destruct (decide (p = this)) as [->|Hpne].
  - destruct (decide (quadrantOf id = i)) as [Hqi|Hqi]; [| by rewrite Hgj].
    rewrite Hqi, Hgo in Hc. simplify_eq.
    rewrite (Hold k eq_refl) in Hp0. discriminate.
  - unfold getChild, deref in *.
    by rewrite (exchangeSlot_lookup _ _ _ _ _ _ p Hex Hpne).
Qed.

Lemma ownQuadrant_sweep h o :
  ownQuadrantBackRefs quadrantOf h → ownQuadrantBackRefs quadrantOf (sweep o h).
Proof.
  intros Hinv k p id Hp Hid%getTileId_sweep.
  apply getParent_Ok in Hp as (nk & Hk & Hpk).
  apply sweep_lookup_Some in Hk as [Hk Hko].
  assert (getParent k h = Ok (Some p)) as Hp0 by (apply getParent_Ok; eauto).
  apply (Hinv k p id Hp0), getChild_Ok in Hid as (np & Hnp & Hat).
  apply getChild_Ok. exists np. split; [| done].
  apply sweep_lookup_Some. split; [done |].
  intros Hpo. apply Hko. eapply owned_child; eauto.
Qed.

Lemma ownQuadrant_setNewParent h this i h' :
  ownQuadrantBackRefs quadrantOf h →
  (∀ c id, getChild this i h = Ok (Some c) → getTileId c h = Ok id →
           i = quadrantOf id) →
  setNewParent this i h = Ok h' → ownQuadrantBackRefs quadrantOf h'.
Proof.
  unfold setNewParent. intros Hinv Hq (c & Hc & H)%bind_Ok.
  destruct c as [c|]; [| by simplify_eq].
  intros k p id Hp Hid.
  rewrite (getTileId_tile h h' k) in Hid by (by eapply setParent_tile).
  rewrite (getChild_children h h') by (by eapply setParent_children).
  apply getParent_Ok in Hp as (nk & Hk & Hpk).
  rewrite (setParent_lookup _ _ _ _ k H) in Hk. case_decide as Hkc.
  - subst k. destruct (h !! c); simpl in Hk; simplify_eq. simpl in Hpk.
    simplify_eq. by rewrite <- (Hq c id Hc Hid).
  - apply Hinv; [| done]. apply getParent_Ok. eauto.
Qed.

Lemma ownQuadrant_setChild h this i child h' :
  ownQuadrantBackRefs quadrantOf h → placedByQuadrant quadrantOf (SetChild this i child) h →
  setChild this i child h = Ok h' → ownQuadrantBackRefs quadrantOf h'.
Proof.
  unfold setChild. intros Hinv Hq (h1 & H1 & H)%bind_Ok.
  apply bind_Ok in H as (h2 & H2 & H3).
  unfold resetSlot in H2. apply bind_Ok in H2 as ([h1' old] & Hex & Hd).
  assert (ownQuadrantBackRefs quadrantOf h1') as Hinv1.
  { eapply ownQuadrant_exchangeSlot;
      [by eapply ownQuadrant_unsetOldParent | done |].
    intros o ->. eapply unsetOldParent_detached; [done |].
    by apply exchangeSlot_getChild in Hex as (? & _). }
  assert (∀ k, getTileId k h1' = getTileId k h) as Htile.
  { intros k. transitivity (getTileId k h1); apply getTileId_tile;
      [by eapply exchangeSlot_tile | by eapply unsetOldParent_tile]. }
  pose proof (exchangeSlot_getChild _ _ _ _ _ _ Hex) as (_ & Hslot & _).
  assert (ownQuadrantBackRefs quadrantOf h2 ∧
          (∀ c, getChild this i h2 = Ok (Some c) →
                getChild this i h1' = Ok (Some c)) ∧
          (∀ k id, getTileId k h2 = Ok id → getTileId k h1' = Ok id))
    as (Hinv2 & Hc2 & Ht2).
  { destruct old as [o|]; simplify_eq; [| done].
    apply destroy_Ok in Hd as ->. split_and!.
    - by apply ownQuadrant_sweep.
    - intros c Hc. apply getChild_Ok in Hc as (n & Hn & Hat).
      apply sweep_lookup_Some in Hn as [Hn _]. apply getChild_Ok. eauto.
    - intros k id. apply getTileId_sweep. }
  eapply ownQuadrant_setNewParent; [exact Hinv2 | | exact H3].
  intros c id Hc%Hc2 Hid%Ht2. rewrite Hslot in Hc. injection Hc as ->.
  simpl in Hq. apply Hq. by rewrite <- Htile.
Qed.

Lemma ownQuadrant_releaseChild h this i h' c :
  ownQuadrantBackRefs quadrantOf h → releaseChild this i h = Ok (h', c) →
  ownQuadrantBackRefs quadrantOf h'.
Proof.
  unfold releaseChild. intros Hinv (h1 & H1 & Hex)%bind_Ok.
  eapply ownQuadrant_exchangeSlot; [by eapply ownQuadrant_unsetOldParent | done |].
  intros o ->. eapply unsetOldParent_detached; [done |].
  by apply exchangeSlot_getChild in Hex as (? & _).
Qed.

Lemma ownQuadrant_runOp h op h' :
  ownQuadrantBackRefs quadrantOf h → placedByQuadrant quadrantOf op h → runOp op h = Ok h' →
  ownQuadrantBackRefs quadrantOf h'.
Proof.
  destruct op as [this i child|this i]; simpl; intros Hinv Hq Hop.
  - by eapply ownQuadrant_setChild.
  - apply bind_Ok in Hop as ([h1 c] & Hrel & ?). simplify_eq.
    by eapply ownQuadrant_releaseChild.
Qed.

Lemma ownQuadrant_parentless h :
  map_Forall (λ _ n, mParent n = None) h → ownQuadrantBackRefs quadrantOf h.
Proof.
  intros Hall k p id (n & Hn & Hp)%getParent_Ok.
  specialize (Hall k n Hn). simpl in Hall. congruence.
Qed.

End OwnQuadrant.

(** C2, with the slot that the code fixes.  If every node with a parent
    sits in a slot of that parent, then the same holds after any sequence of
    [setChild] and [releaseChild] calls, for every node of the store and so
    for every node reachable from any root; the slot is the one the parent
    holds the node in.  It is the quadrant of the node's own TileId after a
    sequence whose calls all place by quadrant, when it was so before;
    this holds for whatever function assigns quadrants to TileIds. *)
Theorem back_references_preserved ops h h' :
  noDanglingBackRefs h → runOps ops h = Ok h' →
  noDanglingBackRefs h' ∧
  (∀ root k p, reachable h' root k → getParent k h' = Ok (Some p) →
               ∃ q, 0 ≤ q ≤ 3 ∧ getChild p q h' = Ok (Some k)) ∧
  (∀ quadrantOf, ownQuadrantBackRefs quadrantOf h →
                 placesByQuadrant quadrantOf ops h →
                 ownQuadrantBackRefs quadrantOf h').
Proof.
  intros Hinv Hrun.
  assert (noDanglingBackRefs h') as Hinv'.
  { revert h Hinv Hrun. induction ops as [|op ops IH]; simpl; intros h Hinv Hrun.
    - by simplify_eq.
    - apply bind_Ok in Hrun as (h1 & Hop & Hrun).
      eapply IH; [| done]. by eapply noDangling_runOp. }
  split_and!; [done | |].
  - intros root k p _ Hp. by apply Hinv'.
  - intros quadrantOf. clear Hinv Hinv'. revert h Hrun.
    induction ops as [|op ops IH]; simpl; intros h Hrun Hq Hplace.
    + by simplify_eq.
    + apply bind_Ok in Hrun as (h1 & Hop & Hrun). destruct Hplace as [Hop1 Hnext].
      apply (IH h1 Hrun); [by eapply ownQuadrant_runOp | by apply Hnext].
Qed.

(** ** [setChild], statement by statement *)

Lemma same_dom_size h h' :
  (∀ k, is_Some (h' !! k) ↔ is_Some (h !! k)) → size h' = size h.
Proof.
  intros Hdom. rewrite <- !(size_dom (D := gset positive)). f_equal.
  apply set_eq. intros k. by rewrite !elem_of_dom.
Qed.

Lemma children_is_Some h h' k :
  mChildren <$> h' !! k = mChildren <$> h !! k →
  is_Some (h' !! k) ↔ is_Some (h !! k).
Proof. intros H. by rewrite <- !(fmap_is_Some mChildren), H. Qed.

Lemma liveChildren_ext h h' q :
  (∀ k, is_Some (h' !! k) ↔ is_Some (h !! k)) →
  mChildren <$> h' !! q = mChildren <$> h !! q →
  liveChildren h' q = liveChildren h q.
Proof.
  intros Hdom Hq. apply set_eq. intros c. rewrite !elem_of_liveChildren.
  destruct (h' !! q) as [n'|] eqn:Hn', (h !! q) as [n|] eqn:Hn;
    simpl in Hq; simplify_eq.
  - split; intros (? & j & ? & Hj & Hl); simplify_eq;
      eexists _, j; (split_and!; [done | congruence | by apply Hdom]).
  - split; intros (? & j & ? & _); discriminate.
Qed.

Lemma exchangeSlot_is_Some h this i v h' old k :
  exchangeSlot this i v h = Ok (h', old) → is_Some (h' !! k) ↔ is_Some (h !! k).
Proof.
  intros Hex. destruct (decide (k = this)) as [->|Hk].
  - apply exchangeSlot_Ok in Hex as (n & a & Hn & _ & _ & ->).
    rewrite lookup_insert_eq, Hn. split; eauto.
  - by rewrite (exchangeSlot_lookup _ _ _ _ _ _ k Hex Hk).
Qed.

Lemma exchangeSlot_live h this i v old :
  getChild this i h = Ok old → ∃ h', exchangeSlot this i v h = Ok (h', old).
Proof.
  intros (n & Hn & Hat)%getChild_Ok.
  destruct (array_set_in_range (mChildren n) i v (array_at_Ok _ _ _ Hat)) as [a Ha].
  eexists. apply exchangeSlot_Ok. eauto 10.
Qed.




End TileNodeFacts.

(** * The merge phase *)

Lemma quadrant_mod id : quadrant id = tid_patchIdx id `mod` 4.
Proof.
  unfold quadrant. change 3 with (Z.ones 2). by rewrite Z.land_ones by lia.
Qed.

Lemma quadrant_range id : 0 ≤ quadrant id ≤ 3.
Proof.
  rewrite quadrant_mod. pose proof (Z.mod_pos_bound (tid_patchIdx id) 4). lia.
Qed.

Lemma tileId_parent_quadrant_inj a b :
  parentId a = parentId b → quadrant a = quadrant b → a = b.
Proof.
  destruct a as [la pa], b as [lb pb]. unfold parentId, quadrant. simpl.
  intros [= Hl Hs] Hq.
  change 3 with (Z.ones 2) in Hq. rewrite !Z.land_ones in Hq by lia.
  rewrite !Z.shiftr_div_pow2 in Hs by lia. change (2 ^ 2) with 4 in *.
  pose proof (Z.div_mod pa 4). pose proof (Z.div_mod pb 4).
  f_equal; lia.
Qed.

Lemma parentId_level id : tid_level (parentId id) = tid_level id - 1.
Proof. done. Qed.

Lemma bind_ext {A B} (f g : A → result B) (r1 r2 : result A) :
  r1 = r2 → (∀ a, f a = g a) → r1 ≫= f = r2 ≫= g.
Proof. intros -> Hfg. destruct r2; simpl; auto. Qed.

Lemma foldM_app {A S} (f : A → S → result S) l1 l2 s :
  foldM f (l1 ++ l2) s = foldM f l1 s ≫= foldM f l2.
Proof.
  revert s. induction l1 as [|x l1 IH]; intros s; simpl; [done |].
  destruct (f x s); simpl; auto.
Qed.

Lemma foldM_fmap {A B S} (g : A → B) (f : B → S → result S) l s :
  foldM f (g <$> l) s = foldM (λ a, f (g a)) l s.
Proof.
  revert s. induction l as [|x l IH]; intros s; simpl; [done |].
  destruct (f (g x) s); simpl; auto.
Qed.

Section MergeFacts.
Context {TileBase : Type} `{!TileBaseOps TileBase}.
Implicit Types (h : gmap positive (@TileNode TileBase)) (s : @TreeManager TileBase).

Lemma merge_as_fold cfg s :
  merge cfg s =
  foldM (mergeItem cfg) (mergeItems s) (withUnmerged [] (withLoaded [] s)).
Proof.
  unfold merge, mergeItems, mergeUnmerged. rewrite foldM_app, foldM_fmap.
  apply bind_ext; [done |]. intros s1. by rewrite foldM_fmap.
Qed.

(** ** Attaching a fresh leaf to an empty slot *)

Lemma freshLeaf_liveChildren h x : freshLeaf h x → liveChildren h x = ∅.
Proof. intros [t Ht]. unfold liveChildren. rewrite Ht. done. Qed.

Lemma destroy_freshLeaf h x : freshLeaf h x → destroy x h = Ok (delete x h).
Proof. intros [t Ht]. by apply (destroy_leaf _ _ _ Ht). Qed.

Lemma setChild_attach h pp q x npp nx :
  h !! pp = Some npp → array_at (mChildren npp) q = Ok None →
  h !! x = Some nx → x ≠ pp →
  ∃ a, array_set (mChildren npp) q (Some x) = Ok a ∧
       setChild pp q (Some x) h =
       Ok (<[x := mkTileNode (mTile nx) (Some pp) (mChildren nx)]>
             (<[pp := mkTileNode (mTile npp) (mParent npp) a]> h)).
Proof.
  intros Hpp Hat Hx Hne.
  destruct (array_set_in_range (mChildren npp) q (Some x) (array_at_Ok _ _ _ Hat))
    as [a Ha].
  exists a. split; [done |].
  unfold setChild, unsetOldParent, getChild. rewrite (deref_live _ _ _ Hpp).
  simpl. rewrite Hat. simpl.
  unfold resetSlot, exchangeSlot. rewrite (deref_live _ _ _ Hpp). simpl.
  rewrite Hat. simpl. rewrite Ha. simpl.
  unfold setNewParent, getChild, deref. rewrite lookup_insert_eq. simpl.
  rewrite (array_at_set_eq _ _ _ _ Ha). simpl.
  unfold setParent, deref. rewrite lookup_insert_ne by done. rewrite Hx. done.
Qed.

(** ** The four ways an insertion attempt can go *)

Lemma getTileId_Ok h x id :
  getTileId x h = Ok id ↔
  ∃ n t, h !! x = Some n ∧ mTile n = Some t ∧ tb_getTileId t = id.
Proof.
  unfold getTileId, derefTile, deref. split.
  - destruct (h !! x) as [n|]; simpl; [| done].
    destruct (mTile n) as [t|] eqn:Ht; simpl; [| done]. intros [= <-]. eauto.
  - intros (n & t & -> & Ht & <-). simpl. by rewrite Ht.
Qed.

Lemma insertNode_cases s x t :
  mHeap s !! x = Some (newTileNode (Some t)) →
  (∀ id n, mRdMap s !! id = Some n → is_Some (mHeap s !! n) ∧ n ≠ x) →
  (insertNode x s = Ok (s, ParentMissing) ∧
     tid_level (tb_getTileId t) ≠ 0 ∧
     mRdMap s !! parentId (tb_getTileId t) = None) ∨
  (insertNode x s = Ok (withHeap (delete x (mHeap s)) s, DiscardedDuplicate) ∧
     ((tid_level (tb_getTileId t) = 0 ∧
       is_Some (mTree s !! tid_patchIdx (tb_getTileId t))) ∨
      (tid_level (tb_getTileId t) ≠ 0 ∧
       ∃ pp y, mRdMap s !! parentId (tb_getTileId t) = Some pp ∧
               getChild pp (quadrant (tb_getTileId t)) (mHeap s) = Ok (Some y)))) ∨
  (insertNode x s =
     Ok (registerNode (tb_getTileId t) x (mHeap s)
           (<[tid_patchIdx (tb_getTileId t) := x]> (mTree s)) s, Inserted) ∧
     tid_level (tb_getTileId t) = 0 ∧
     mTree s !! tid_patchIdx (tb_getTileId t) = None) ∨
  (∃ pp npp a,
     insertNode x s =
       Ok (registerNode (tb_getTileId t) x
             (<[x := mkTileNode (Some t) (Some pp) (Array4 None None None None)]>
                (<[pp := mkTileNode (mTile npp) (mParent npp) a]> (mHeap s)))
             (mTree s) s, Inserted) ∧
     tid_level (tb_getTileId t) ≠ 0 ∧
     mRdMap s !! parentId (tb_getTileId t) = Some pp ∧
     mHeap s !! pp = Some npp ∧ x ≠ pp ∧
     array_at (mChildren npp) (quadrant (tb_getTileId t)) = Ok None ∧
     array_set (mChildren npp) (quadrant (tb_getTileId t)) (Some x) = Ok a).
Proof.
  intros Hx Hrd. set (id := tb_getTileId t).
  assert (getTileId x (mHeap s) = Ok id) as Hid.
  { apply getTileId_Ok. eauto. }
  assert (destroy x (mHeap s) = Ok (delete x (mHeap s))) as Hdel.
  { apply destroy_freshLeaf. by exists t. }
  unfold insertNode. rewrite Hid. simpl. case_decide as Hlvl.
  - destruct (mTree s !! tid_patchIdx id) as [r|] eqn:Hroot.
    + right. left. rewrite Hdel. split; [done |]. left. eauto.
    + right. right. left. done.
  - destruct (mRdMap s !! parentId id) as [pp|] eqn:Hpp.
    + destruct (Hrd _ _ Hpp) as ([npp Hnpp] & Hne).
      destruct (array_at_in_range (mChildren npp) (quadrant id) (quadrant_range id))
        as [slot Hslot].
      assert (getChild pp (quadrant id) (mHeap s) = Ok slot) as Hget.
      { apply getChild_Ok. eauto. }
      rewrite Hget. simpl. destruct slot as [y|].
      * right. left. rewrite Hdel. split; [done |]. right. eauto.
      * do 3 right.
        destruct (setChild_attach _ _ _ _ _ _ Hnpp Hslot Hx) as (a & Ha & Hset);
          [done |].
        exists pp, npp, a. rewrite Hset. simpl. split_and!; done.
    + left. done.
Qed.

Lemma attach_facts h x t pp npp a q :
  h !! x = Some (newTileNode (Some t)) → h !! pp = Some npp → x ≠ pp →
  array_set (mChildren npp) q (Some x) = Ok a →
  let h' := <[x := mkTileNode (Some t) (Some pp) (Array4 None None None None)]>
              (<[pp := mkTileNode (mTile npp) (mParent npp) a]> h) in
  (∀ k, getTileId k h' = getTileId k h) ∧
  (∀ k, k ≠ x → getParent k h' = getParent k h) ∧
  (∀ k j, k ≠ x → Some (pp, q) ≠ Some (k, j) → getChild k j h' = getChild k j h) ∧
  (∀ j, 0 ≤ j ≤ 3 → getChild x j h' = Ok None) ∧
  getChild pp q h' = Ok (Some x) ∧
  getParent x h' = Ok (Some pp) ∧
  (∀ k, k ≠ x → k ≠ pp → h' !! k = h !! k).
Proof.
  intros Hx Hpp Hne Ha h'. subst h'. split_and!.
  - intros k. unfold getTileId, deref.
    destruct (decide (k = x)) as [->|Hkx].
    { by rewrite lookup_insert_eq, Hx. }
    rewrite lookup_insert_ne by done.
    destruct (decide (k = pp)) as [->|Hkp].
    { by rewrite lookup_insert_eq, Hpp. }
    by rewrite lookup_insert_ne.
  - intros k Hkx. unfold getParent, deref. rewrite lookup_insert_ne by done.
    destruct (decide (k = pp)) as [->|Hkp].
    { by rewrite lookup_insert_eq, Hpp. }
    by rewrite lookup_insert_ne.
  - intros k j Hkx Hslot. unfold getChild, deref. rewrite lookup_insert_ne by done.
    destruct (decide (k = pp)) as [->|Hkp].
    + rewrite lookup_insert_eq, Hpp. simpl.
      eapply array_at_set_ne; [done |]. congruence.
    + by rewrite lookup_insert_ne.
  - intros j Hj. unfold getChild, deref. rewrite lookup_insert_eq. simpl.
    unfold array_at. simpl. repeat case_decide; try done. lia.
  - unfold getChild, deref. rewrite lookup_insert_ne by done.
    rewrite lookup_insert_eq. simpl. by eapply array_at_set_eq.
  - unfold getParent, deref. by rewrite lookup_insert_eq.
  - intros k Hkx Hkp. by rewrite !lookup_insert_ne.
Qed.

(** ** One work item *)

Section Pair.
Variables (cfg : Config) (p c : positive) (pid cid : TileId).
Hypothesis Hpc : parentId cid = pid.
Hypothesis Hlevel : 0 ≤ tid_level pid.

Lemma child_level : tid_level cid ≠ 0.
Proof using Hpc Hlevel. rewrite <- Hpc, parentId_level in Hlevel. lia. Qed.

Lemma child_id_ne : cid ≠ pid.
Proof using Hpc.
  intros Heq. rewrite Heq in Hpc. apply (f_equal tid_level) in Hpc.
  rewrite parentId_level in Hpc. lia.
Qed.

Lemma pendingAt_cons it todo s :
  pendingAt (it :: todo) s = itemNode it :: pendingAt todo s.
Proof. done. Qed.

Lemma pendingAt_defer todo s na :
  pendingAt todo (withUnmerged (mUnmergedNodes s ++ [na]) s)
  ≡ₚ mNode na :: pendingAt todo s.
Proof.
  unfold pendingAt. simpl. rewrite fmap_app. simpl.
  rewrite app_assoc. by rewrite <- Permutation_cons_append.
Qed.

Lemma freshLeaf_getChild h x j : freshLeaf h x → 0 ≤ j ≤ 3 → getChild x j h = Ok None.
Proof.
  intros [t Ht] Hj. apply getChild_Ok. eexists. split; [done |].
  unfold array_at. simpl. repeat case_decide; try done. lia.
Qed.

(** The node of the item at hand is queued, fresh, and not resident. *)
Lemma common_head it todo s :
  common p c pid cid (it :: todo) s →
  freshLeaf (mHeap s) (itemNode it) ∧
  (itemNode it ∉ pendingAt todo s) ∧
  (∀ id n, mRdMap s !! id = Some n →
           is_Some (mHeap s !! n) ∧ n ≠ itemNode it).
Proof.
  intros (Hnd & Hfresh & Hrd & _). rewrite pendingAt_cons in *.
  split_and!.
  - apply Hfresh. by left.
  - by apply NoDup_cons in Hnd as [? _].
  - intros id n Hn. destruct (Hrd id n Hn) as [Hid Hnp]. split.
    + apply getTileId_Ok in Hid as (? & ? & ? & _). eauto.
    + intros ->. apply Hnp. by left.
Qed.

Lemma common_defer it todo s na :
  common p c pid cid (it :: todo) s → mNode na = itemNode it →
  common p c pid cid todo (withUnmerged (mUnmergedNodes s ++ [na]) s).
Proof.
  intros (Hnd & Hfresh & Hrd & Hsole & Hl) Hna.
  assert (∀ y, y ∈ pendingAt todo (withUnmerged (mUnmergedNodes s ++ [na]) s) ↔
               y ∈ pendingAt (it :: todo) s) as Hmem.
  { intros y. by rewrite pendingAt_defer, Hna, pendingAt_cons. }
  split_and!.
  - by rewrite pendingAt_defer, Hna.
  - intros y Hy%Hmem. by apply Hfresh.
  - intros id n Hn. destruct (Hrd id n Hn) as [? Hnp]. split; [done |].
    by rewrite Hmem.
  - intros y Hy%Hmem. by apply Hsole.
  - done.
Qed.

Lemma common_drop it todo s :
  common p c pid cid (it :: todo) s →
  common p c pid cid todo (withHeap (delete (itemNode it) (mHeap s)) s).
Proof.
  intros (Hnd & Hfresh & Hrd & Hsole & Hl).
  rewrite pendingAt_cons in *. apply NoDup_cons in Hnd as [Hx Hnd].
  change (pendingAt todo (withHeap (delete (itemNode it) (mHeap s)) s))
    with (pendingAt todo s).
  assert (∀ k, k ≠ itemNode it →
               getTileId k (delete (itemNode it) (mHeap s)) = getTileId k (mHeap s))
    as Hid.
  { intros k Hk. unfold getTileId, deref. simpl. by rewrite lookup_delete_ne. }
  split_and!; simpl.
  - done.
  - intros y Hy. destruct (Hfresh y) as [t Ht]; [by right |]. exists t.
    rewrite lookup_delete_ne; [done |]. by intros <-.
  - intros id n Hn. destruct (Hrd id n Hn) as [Hidn Hnp]. split.
    + rewrite Hid; [done |]. intros ->. apply Hnp. by left.
    + intros Hin. apply Hnp. by right.
  - intros y Hy. rewrite Hid by (intros ->; done). apply Hsole. by right.
  - done.
Qed.

(** Registration of the node at hand under [id], in a store [h'] in which the
    other queued nodes are as before and no tile has changed. *)
Lemma common_register it todo s id h' tree' :
  common p c pid cid (it :: todo) s →
  (∀ y, y ∈ pendingAt todo s → h' !! y = mHeap s !! y) →
  (∀ k, k ≠ itemNode it → getTileId k h' = getTileId k (mHeap s)) →
  getTileId (itemNode it) h' = Ok id →
  common p c pid cid todo (registerNode id (itemNode it) h' tree' s).
Proof.
  intros (Hnd & Hfresh & Hrd & Hsole & Hl) Hsame Htiles Hid.
  rewrite pendingAt_cons in *. apply NoDup_cons in Hnd as [Hx Hnd].
  change (pendingAt todo (registerNode id (itemNode it) h' tree' s))
    with (pendingAt todo s).
  split_and!; simpl.
  - done.
  - intros y Hy. destruct (Hfresh y) as [t Ht]; [by right |]. exists t.
    by rewrite Hsame.
  - intros id' n Hn. apply lookup_insert_Some in Hn as [[<- <-]|[Hne Hn]].
    + done.
    + destruct (Hrd id' n Hn) as [Hidn Hnp]. split.
      * rewrite Htiles; [done |]. intros ->. apply Hnp. by left.
      * intros Hin. apply Hnp. by right.
  - intros y Hy.
    rewrite Htiles by (intros ->; done). apply Hsole. by right.
  - done.
Qed.

(** Identity of the node at hand, by phase. *)
Lemma head_identity ph it todo s t :
  common p c pid cid (it :: todo) s → phaseInv cfg p c pid cid ph (it :: todo) s →
  mHeap s !! itemNode it = Some (newTileNode (Some t)) →
  match ph with
  | BothPending =>
      (itemNode it = p ↔ tb_getTileId t = pid) ∧
      (itemNode it = c ↔ tb_getTileId t = cid)
  | ParentIn =>
      itemNode it ≠ p ∧ tb_getTileId t ≠ pid ∧
      (itemNode it = c ↔ tb_getTileId t = cid)
  | Linked =>
      itemNode it ≠ p ∧ tb_getTileId t ≠ pid ∧
      itemNode it ≠ c ∧ tb_getTileId t ≠ cid
  end.
Proof using Type.
  intros (Hnd & Hfresh & Hrd & Hsole & Hl) Hph Hx.
  assert (getTileId (itemNode it) (mHeap s) = Ok (tb_getTileId t)) as Hid
    by (apply getTileId_Ok; eauto).
  destruct (Hsole (itemNode it)) as [Hsp Hsc]; [by left |].
  assert (∀ id n, mRdMap s !! id = Some n → n ≠ itemNode it) as Hres.
  { intros id n Hn ->. destruct (Hrd id _ Hn) as [_ Hnp]. apply Hnp. by left. }
  destruct ph; simpl in Hph.
  - destruct Hph as (_ & _ & Hp & Hc & _). split; split.
    + intros Heq. rewrite Heq in Hid. congruence.
    + intros Heq. apply Hsp. by rewrite Hid, Heq.
    + intros Heq. rewrite Heq in Hid. congruence.
    + intros Heq. apply Hsc. by rewrite Hid, Heq.
  - destruct Hph as (_ & Hc & Hp & _).
    assert (itemNode it ≠ p) as Hxp by (intros Heq; by apply (Hres _ _ Hp)).
    split_and!; [done | | split].
    + intros Heq. apply Hxp, Hsp. by rewrite Hid, Heq.
    + intros Heq. rewrite Heq in Hid. congruence.
    + intros Heq. apply Hsc. by rewrite Hid, Heq.
  - destruct Hph as (Hp & Hc & _).
    assert (itemNode it ≠ p) as Hxp by (intros Heq; by apply (Hres _ _ Hp)).
    assert (itemNode it ≠ c) as Hxc by (intros Heq; by apply (Hres _ _ Hc)).
    split_and!; [done | | done |].
    + intros Heq. apply Hxp, Hsp. by rewrite Hid, Heq.
    + intros Heq. apply Hxc, Hsc. by rewrite Hid, Heq.
Qed.

Lemma elem_of_pendingAt_tail it todo s y :
  y ∈ pendingAt (it :: todo) s → y ≠ itemNode it → y ∈ pendingAt todo s.
Proof.
  rewrite pendingAt_cons. intros [->|Hy]%elem_of_cons Hne; done.
Qed.

(** *** The item stays unmerged *)

Lemma phase_defer ph it todo s na t :
  common p c pid cid (it :: todo) s → phaseInv cfg p c pid cid ph (it :: todo) s →
  mNode na = itemNode it →
  mHeap s !! itemNode it = Some (newTileNode (Some t)) →
  tid_level (tb_getTileId t) ≠ 0 →
  mRdMap s !! parentId (tb_getTileId t) = None →
  phaseInv cfg p c pid cid (next p c ph (itemNode it)) todo
           (withUnmerged (mUnmergedNodes s ++ [na]) s).
Proof using Hpc Hlevel.
  intros Hcom Hph Hna Hx Hlvl Hnone.
  pose proof (head_identity ph it todo s t Hcom Hph Hx) as Hident.
  assert (∀ y, y ∈ pendingAt (it :: todo) s →
               y ∈ pendingAt todo (withUnmerged (mUnmergedNodes s ++ [na]) s))
    as Hmem.
  { intros y Hy. by rewrite pendingAt_defer, Hna, <- pendingAt_cons. }
  destruct ph; simpl in *.
  - destruct Hph as (Hp & Hc & Hpid & Hcid & Hrp & Hrc & Hcan & Hexp).
    destruct Hident as [Hip Hic].
    assert (itemNode it ≠ p) as Hxp.
    { intros Heq. apply Hip in Heq. rewrite Heq in *.
      unfold canInsert in Hcan. rewrite decide_False in Hcan by done.
      destruct Hcan as (pp & Hpp & _). congruence. }
    rewrite decide_False by done. simpl.
    split_and!; auto.
    intros na' Hin. apply Hexp. by right.
  - destruct Hph as (Hc & Hcid & Hrp & Hrc & Hslot).
    destruct Hident as (Hxp & Hnp & Hic).
    assert (itemNode it ≠ c) as Hxc.
    { intros Heq. apply Hic in Heq. rewrite Heq, Hpc in Hnone. congruence. }
    rewrite decide_False by done. simpl. split_and!; auto.
  - done.
Qed.

(** *** The item is discarded *)

Lemma phase_drop ph it todo s t :
  common p c pid cid (it :: todo) s → phaseInv cfg p c pid cid ph (it :: todo) s →
  mHeap s !! itemNode it = Some (newTileNode (Some t)) →
  (tid_level (tb_getTileId t) ≠ 0 ∧
   mRdMap s !! parentId (tb_getTileId t) = None ∧
   ∃ na, it = inl na ∧ cfgGracePeriod cfg < mFrameCount s - mFrame na) ∨
  (tid_level (tb_getTileId t) = 0 ∧
   is_Some (mTree s !! tid_patchIdx (tb_getTileId t))) ∨
  (tid_level (tb_getTileId t) ≠ 0 ∧
   ∃ pp y, mRdMap s !! parentId (tb_getTileId t) = Some pp ∧
           getChild pp (quadrant (tb_getTileId t)) (mHeap s) = Ok (Some y)) →
  phaseInv cfg p c pid cid (next p c ph (itemNode it)) todo
           (withHeap (delete (itemNode it) (mHeap s)) s).
Proof using Hpc Hlevel.
  intros Hcom Hph Hx Hwhy.
  pose proof (head_identity ph it todo s t Hcom Hph Hx) as Hident.
  pose proof child_level as Hcl.
  assert (∀ k, k ≠ itemNode it →
               delete (itemNode it) (mHeap s) !! k = mHeap s !! k) as Hsame
    by (intros k Hk; by rewrite lookup_delete_ne).
  assert (∀ k, k ≠ itemNode it →
    getTileId k (delete (itemNode it) (mHeap s)) = getTileId k (mHeap s) ∧
    getParent k (delete (itemNode it) (mHeap s)) = getParent k (mHeap s) ∧
    ∀ j, getChild k j (delete (itemNode it) (mHeap s)) = getChild k j (mHeap s))
    as Hget.
  { intros k Hk. unfold getTileId, getParent, getChild, deref.
    by rewrite Hsame. }
  destruct (common_head it todo s Hcom) as (_ & _ & Hres).
  destruct ph; simpl in *.
  - destruct Hph as (Hp & Hc & Hpid & Hcid & Hrp & Hrc & Hcan & Hexp).
    destruct Hident as [Hip Hic].
    assert (itemNode it ≠ p) as Hxp.
    { intros Heq. apply Hip in Heq. rewrite Heq in *. unfold canInsert in Hcan.
      destruct Hwhy as [(Hl & Hn & _)|[(Hl & Hocc)|(Hl & pp & y & Hpp & Hy)]].
      - rewrite decide_False in Hcan by done.
        destruct Hcan as (pp & Hpp & _). congruence.
      - rewrite decide_True in Hcan by done. rewrite Hcan in Hocc.
        by destruct Hocc.
      - rewrite decide_False in Hcan by done.
        destruct Hcan as (pp' & Hpp' & Hslot). congruence. }
    assert (itemNode it ≠ c) as Hxc.
    { intros Heq. pose proof Heq as Heq'. apply Hic in Heq'. rewrite Heq' in *.
      destruct Hwhy as [(Hl & Hn & na & -> & Hold)|[(Hl & _)|(Hl & pp & y & Hpp & _)]].
      - specialize (Hexp na). simpl in Heq.
        assert (mFrameCount s - mFrame na ≤ cfgGracePeriod cfg)
          by (apply Hexp; [by left | done]).
        lia.
      - done.
      - rewrite Hpc in Hpp. congruence. }
    rewrite decide_False by done. simpl.
    destruct (Hget p) as (Hgp & _); [done |].
    destruct (Hget c) as (Hgc & _); [done |].
    split_and!.
    + by eapply elem_of_pendingAt_tail.
    + by eapply elem_of_pendingAt_tail.
    + congruence.
    + congruence.
    + done.
    + done.
    + unfold canInsert in *. simpl. case_decide; [done |].
      destruct Hcan as (pp & Hpp & Hslot). exists pp. split; [done |].
      destruct (Hres _ _ Hpp) as [_ Hne].
      destruct (Hget pp Hne) as (_ & _ & Hch). by rewrite Hch.
    + intros na' Hin. apply Hexp. by right.
  - destruct Hph as (Hc & Hcid & Hrp & Hrc & Hslot).
    destruct Hident as (Hxp & Hnp & Hic).
    assert (itemNode it ≠ c) as Hxc.
    { intros Heq. apply Hic in Heq. rewrite Heq in *.
      destruct Hwhy as [(Hl & Hn & _)|[(Hl & _)|(Hl & pp & y & Hpp & Hy)]].
      - rewrite Hpc in Hn. congruence.
      - done.
      - rewrite Hpc in Hpp. simplify_eq. congruence. }
    rewrite decide_False by done. simpl.
    destruct (Hget p) as (_ & _ & Hgp); [done |].
    destruct (Hget c) as (Hgc & _); [done |].
    split_and!.
    + by eapply elem_of_pendingAt_tail.
    + congruence.
    + done.
    + done.
    + by rewrite Hgp.
  - destruct Hph as (Hrp & Hrc & Hslot & Hpar).
    destruct Hident as (Hxp & _ & Hxc & _).
    destruct (Hget p) as (_ & _ & Hgp); [done |].
    destruct (Hget c) as (_ & Hgc & _); [done |].
    unfold linked. simpl. split_and!; [done | done | by rewrite Hgp | congruence].
Qed.

(** *** The item is inserted

    [att] is the slot the node is attached to ([None] for a level 0 tile,
    which the tree root holds); [h'] is the store after the attachment. *)

Lemma tileId_level0_inj a b :
  tid_level a = 0 → tid_level b = 0 → tid_patchIdx a = tid_patchIdx b → a = b.
Proof. destruct a, b. simpl. congruence. Qed.

Lemma phase_register ph it todo s t h' tree' (att : option (positive * Z)) :
  common p c pid cid (it :: todo) s → phaseInv cfg p c pid cid ph (it :: todo) s →
  mHeap s !! itemNode it = Some (newTileNode (Some t)) →
  (∀ k, getTileId k h' = getTileId k (mHeap s)) →
  (∀ k, k ≠ itemNode it → getParent k h' = getParent k (mHeap s)) →
  (∀ k j, k ≠ itemNode it → att ≠ Some (k, j) →
          getChild k j h' = getChild k j (mHeap s)) →
  (∀ j, 0 ≤ j ≤ 3 → getChild (itemNode it) j h' = Ok None) →
  match att with
  | None =>
      tid_level (tb_getTileId t) = 0 ∧
      mTree s !! tid_patchIdx (tb_getTileId t) = None ∧
      tree' = <[tid_patchIdx (tb_getTileId t) := itemNode it]> (mTree s)
  | Some (pp, q) =>
      tid_level (tb_getTileId t) ≠ 0 ∧
      mRdMap s !! parentId (tb_getTileId t) = Some pp ∧
      q = quadrant (tb_getTileId t) ∧ tree' = mTree s ∧
      getChild pp q h' = Ok (Some (itemNode it)) ∧
      getParent (itemNode it) h' = Ok (Some pp)
  end →
  phaseInv cfg p c pid cid (next p c ph (itemNode it)) todo
           (registerNode (tb_getTileId t) (itemNode it) h' tree' s).
Proof using Hpc Hlevel.
  intros Hcom Hph Hx Htile Hpar Hch Hleaf Hatt.
  pose proof (head_identity ph it todo s t Hcom Hph Hx) as Hident.
  pose proof child_level as Hcl. pose proof child_id_ne as Hcp.
  destruct (common_head it todo s Hcom) as (_ & _ & Hres).
  destruct Hcom as (_ & _ & Hrd & _).
  set (x := itemNode it) in *. set (xid := tb_getTileId t) in *.
  (* a slot of a resident node is only taken by the tile that belongs there *)
  assert (∀ qid n, mRdMap s !! parentId qid = Some n → xid ≠ qid →
                   att ≠ Some (n, quadrant qid)) as Hslot_free.
  { intros qid n Hn Hne Heq. rewrite Heq in Hatt.
    destruct Hatt as (_ & Hpp & Hq & _).
    destruct (Hrd _ _ Hn) as [Hid1 _]. destruct (Hrd _ _ Hpp) as [Hid2 _].
    apply Hne. symmetry. apply tileId_parent_quadrant_inj; congruence. }
  destruct ph; simpl in Hph, Hident.
  - destruct Hph as (Hp & Hc & Hpid & Hcid & Hrp & Hrc & Hcan & Hexp).
    destruct Hident as [Hip Hic].
    assert (x ≠ c) as Hxc.
    { intros Heq. apply Hic in Heq. destruct att as [[pp q]|].
      - destruct Hatt as (_ & Hpp & _). rewrite Heq, Hpc in Hpp. congruence.
      - destruct Hatt as (Hl & _). rewrite Heq in Hl. done. }
    assert (xid ≠ cid) as Hnc by (intros Heq; by apply Hxc, Hic).
    assert (c ∈ pendingAt todo s) as Hc' by (by eapply elem_of_pendingAt_tail).
    simpl. destruct (decide (x = p)) as [Hxp|Hxp].
    + assert (xid = pid) as Hxid by (by apply Hip).
      simpl. split_and!.
      * done.
      * by rewrite Htile.
      * rewrite Hxid, Hxp. apply lookup_insert_eq.
      * rewrite lookup_insert_ne; done.
      * rewrite <- Hxp. apply Hleaf, quadrant_range.
    + assert (xid ≠ pid) as Hnp by (intros Heq; by apply Hxp, Hip).
      simpl. split_and!.
      * by eapply elem_of_pendingAt_tail.
      * done.
      * by rewrite Htile.
      * by rewrite Htile.
      * rewrite lookup_insert_ne; done.
      * rewrite lookup_insert_ne; done.
      * unfold canInsert in *. simpl. case_decide as Hl0.
        -- destruct att as [[pp q]|].
           ++ destruct Hatt as (_ & _ & _ & -> & _). done.
           ++ destruct Hatt as (Hxl & _ & ->). rewrite lookup_insert_ne; [done |].
              intros Heq. apply Hnp. by apply tileId_level0_inj.
        -- destruct Hcan as (pp0 & Hpp0 & Hfree).
           destruct (decide (xid = parentId pid)) as [Heq|Hne].
           ++ exists x. rewrite Heq, lookup_insert_eq. split; [done |].
              apply Hleaf, quadrant_range.
           ++ exists pp0. rewrite lookup_insert_ne by done. split; [done |].
              rewrite Hch; [done | by apply (Hres _ _ Hpp0) |].
              by apply Hslot_free.
      * intros na Hin. apply Hexp. by right.
  - destruct Hph as (Hc & Hcid & Hrp & Hrc & Hfree).
    destruct Hident as (Hxp & Hnp & Hic).
    simpl. destruct (decide (x = c)) as [Hxc|Hxc].
    + assert (xid = cid) as Hxid by (by apply Hic).
      destruct att as [[pp q]|]; [| destruct Hatt as (Hl & _); congruence].
      destruct Hatt as (_ & Hpp & -> & _ & Hnew & Hparent).
      rewrite Hxid, Hpc, Hrp in Hpp. assert (pp = p) as -> by congruence.
      unfold linked. rewrite Hxid in *. split_and!; simpl.
      * rewrite lookup_insert_ne; done.
      * rewrite lookup_insert_eq. by rewrite Hxc.
      * by rewrite <- Hxc.
      * by rewrite <- Hxc.
    + assert (xid ≠ cid) as Hnc by (intros Heq; by apply Hxc, Hic).
      simpl. split_and!.
      * by eapply elem_of_pendingAt_tail.
      * by rewrite Htile.
      * rewrite lookup_insert_ne; done.
      * rewrite lookup_insert_ne; done.
      * rewrite Hch; [done | by intros -> |].
        apply Hslot_free; [by rewrite Hpc | done].
  - destruct Hph as (Hrp & Hrc & Hslot & Hparent).
    destruct Hident as (Hxp & Hnp & Hxc & Hnc).
    unfold linked. split_and!; simpl.
    + rewrite lookup_insert_ne; done.
    + rewrite lookup_insert_ne; done.
    + rewrite Hch; [done | by intros -> |].
      apply Hslot_free; [by rewrite Hpc | done].
    + rewrite Hpar; [done | by intros ->].
Qed.

(** *** Every work item is handled, and moves the pair along *)

Lemma mergeItem_step ph it todo s :
  common p c pid cid (it :: todo) s → phaseInv cfg p c pid cid ph (it :: todo) s →
  ∃ s', mergeItem cfg it s = Ok s' ∧
        common p c pid cid todo s' ∧
        phaseInv cfg p c pid cid (next p c ph (itemNode it)) todo s'.
Proof using Hpc Hlevel.
  intros Hcom Hph.
  destruct (common_head it todo s Hcom) as ([t Hx] & Hnotin & Hres).
  assert (destroy (itemNode it) (mHeap s) = Ok (delete (itemNode it) (mHeap s)))
    as Hdel.
  { apply destroy_freshLeaf. by exists t. }
  assert (∃ r, insertNode (itemNode it) s = Ok r ∧
               mergeItem cfg it s =
               match r.2 with
               | ParentMissing =>
                   match it with
                   | inl na =>
                       if decide (cfgGracePeriod cfg < mFrameCount r.1 - mFrame na)
                       then h ← destroy (mNode na) (mHeap r.1); Ok (withHeap h r.1)
                       else Ok (withUnmerged (mUnmergedNodes r.1 ++ [na]) r.1)
                   | inr x => Ok (storeUnmerged x r.1)
                   end
               | _ => Ok r.1
               end) as Hshape.
  { destruct (insertNode_cases s _ t Hx Hres)
      as [(Hins & _)|[(Hins & _)|[(Hins & _)|(? & ? & ? & Hins & _)]]];
      eexists; (split; [exact Hins |]);
      destruct it; simpl in *; unfold retryUnmerged, mergeLoaded;
      rewrite Hins; reflexivity. }
  destruct Hshape as (r & Hr & Hmerge). rewrite Hmerge. clear Hmerge.
  destruct (insertNode_cases s _ t Hx Hres)
    as [(Hins & Hl & Hn)|[(Hins & Hwhy)|[(Hins & Hl & Hroot)|
        (pp & npp & a & Hins & Hl & Hpp & Hnpp & Hne & Hat & Ha)]]];
    rewrite Hins in Hr; injection Hr as <-; simpl.
  - destruct it as [na|x]; simpl in *.
    + case_decide as Hold.
      * rewrite Hdel. simpl. eexists. split; [done |]. split.
        -- by apply (common_drop (inl na)).
        -- apply (phase_drop ph (inl na) todo s t); try done. left. eauto.
      * eexists. split; [done |]. split.
        -- by apply (common_defer (inl na)).
        -- by apply (phase_defer ph (inl na) todo s na t).
    + eexists. split; [done |]. unfold storeUnmerged. split.
      * by apply (common_defer (inr x)).
      * by apply (phase_defer ph (inr x) todo s _ t).
  - eexists. split; [done |]. split.
    + by apply common_drop.
    + apply (phase_drop ph it todo s t); try done. by right.
  - assert (getTileId (itemNode it) (mHeap s) = Ok (tb_getTileId t)) as Hid
      by (apply getTileId_Ok; eauto).
    eexists. split; [done |]. split.
    + by apply common_register.
    + apply (phase_register ph it todo s t _ _ None); try done.
      intros j Hj. apply freshLeaf_getChild; [by exists t | done].
  - destruct (attach_facts _ _ _ _ _ _ _ Hx Hnpp Hne Ha)
      as (Htile & Hpar & Hch & Hleaf & Hnew & Hparent & Hother).
    assert (getTileId (itemNode it) (mHeap s) = Ok (tb_getTileId t)) as Hid
      by (apply getTileId_Ok; eauto).
    eexists. split; [done |]. split.
    + apply common_register; try done.
      * intros y Hy. apply Hother; [by intros -> |].
        intros ->. destruct Hcom as (_ & _ & Hrd & _).
        destruct (Hrd _ _ Hpp) as [_ Hnp]. apply Hnp. by right.
      * by rewrite Htile.
    + apply (phase_register ph it todo s t _ _ (Some (pp, quadrant (tb_getTileId t))));
        try done.
Qed.

Lemma mergeItems_fold ph todo s :
  common p c pid cid todo s → phaseInv cfg p c pid cid ph todo s →
  ∃ s', foldM (mergeItem cfg) todo s = Ok s' ∧
        common p c pid cid [] s' ∧
        phaseInv cfg p c pid cid (foldl (next p c) ph (itemNode <$> todo)) [] s'.
Proof using Hpc Hlevel.
  revert ph s. induction todo as [|it todo IH]; intros ph s Hcom Hph.
  - exists s. done.
  - destruct (mergeItem_step ph it todo s Hcom Hph) as (s1 & Hs1 & Hcom1 & Hph1).
    destruct (IH _ _ Hcom1 Hph1) as (s' & Hs' & Hcom' & Hph').
    exists s'. simpl. rewrite Hs1. simpl. done.
Qed.

Lemma foldl_next_Linked l : foldl (next p c) Linked l = Linked.
Proof. induction l; simpl; auto. Qed.

Lemma foldl_next_ParentIn l : c ∈ l → foldl (next p c) ParentIn l = Linked.
Proof.
  induction l as [|x l IH]; intros Hin; [by apply elem_of_nil in Hin |].
  simpl. case_decide as Hx; [apply foldl_next_Linked |].
  apply IH. apply elem_of_cons in Hin as [->|]; done.
Qed.

Lemma foldl_next_started l ph :
  ph ≠ BothPending → foldl (next p c) ph l ≠ BothPending.
Proof.
  revert ph. induction l as [|y l IH]; intros ph Hph; simpl; [done |].
  apply IH. destruct ph; simpl; try done. by case_decide.
Qed.

Lemma foldl_next_BothPending l :
  p ∈ l → foldl (next p c) BothPending l ≠ BothPending.
Proof.
  induction l as [|x l IH]; intros Hin; [by apply elem_of_nil in Hin |].
  simpl. case_decide as Hx; [by apply foldl_next_started |].
  apply IH. apply elem_of_cons in Hin as [->|]; done.
Qed.

End Pair.

(** ** Two consecutive merges *)

(** Two completion callbacks in a row put the first node ahead of the
    second. *)
Lemma onNodeLoaded_order s lc pc c lp pp p :
  deliveredBefore c p (onNodeLoaded lp pp p (onNodeLoaded lc pc c s)).
Proof.
  right. exists (mLoadedNodes s), [], []. simpl. by rewrite <- app_assoc.
Qed.

Lemma itemNode_mergeItems s : itemNode <$> mergeItems s = pendingNodes s.
Proof.
  unfold mergeItems, pendingNodes. rewrite fmap_app, <- !list_fmap_compose.
  f_equal. apply list_fmap_id.
Qed.

Lemma pendingAt_start s :
  pendingAt (mergeItems s) (withUnmerged [] (withLoaded [] s)) = pendingNodes s.
Proof. unfold pendingAt. simpl. by rewrite app_nil_r, itemNode_mergeItems. Qed.

Lemma common_transport p c pid cid todo todo' s s' :
  pendingAt todo' s' = pendingAt todo s → mHeap s' = mHeap s →
  mRdMap s' = mRdMap s → mLoadedNodes s' = [] →
  common p c pid cid todo s → common p c pid cid todo' s'.
Proof.
  unfold common. intros Hp Hh Hr Hl H. rewrite Hp, Hh, Hr, Hl.
  destruct H as (? & ? & ? & ? & ?). done.
Qed.

(** C1: out-of-order merge.  [c] holds the child tile of the tile held by
    [p]; neither tile is resident, [p] is in the queue of loaded nodes and
    its own place in the tree is free; [c] was delivered before [p] and its
    grace period has not expired.  Then the merge that drains [p] succeeds
    and makes [p] resident, and after the merge of the following update (in
    whatever frame) both nodes are resident and [c] sits in its quadrant of
    [p], with [p] as its parent. *)
Theorem child_before_parent_merge_links_both cfg s p c pid cid frame :
  wfManager s →
  getTileId p (mHeap s) = Ok pid → getTileId c (mHeap s) = Ok cid →
  parentId cid = pid → 0 ≤ tid_level pid →
  mRdMap s !! pid = None → mRdMap s !! cid = None →
  soleLoads p c pid cid s →
  canInsert pid s →
  deliveredBefore c p s → unexpired cfg c s →
  ∃ s1 s2, merge cfg s = Ok s1 ∧ mRdMap s1 !! pid = Some p ∧
           merge cfg (setFrameCount frame s1) = Ok s2 ∧
           linked p c pid cid s2.
Proof.
  intros (Hnd & Hfresh & Hrd) Hpid Hcid Hpc Hlvl Hrp Hrc Hsole Hcan Hdel Hexp.
  assert (p ∈ pendingNodes s ∧ c ∈ pendingNodes s) as [Hp Hc].
  { unfold pendingNodes. rewrite !elem_of_app.
    destruct Hdel as [[Hcu Hpl]|(l1 & l2 & l3 & Hl)]; [by auto |].
    rewrite Hl. split; right; rewrite !elem_of_app, !elem_of_cons.
    - right. right. rewrite elem_of_app, elem_of_cons. auto.
    - auto. }
  set (s0 := withUnmerged [] (withLoaded [] s)).
  assert (common p c pid cid (mergeItems s) s0) as Hcom.
  { unfold common. subst s0. rewrite pendingAt_start. simpl. done. }
  assert (phaseInv cfg p c pid cid BothPending (mergeItems s) s0) as Hph.
  { simpl. subst s0. rewrite pendingAt_start. simpl. split_and!; try done.
    intros na Hin Hna. apply Hexp; [| done].
    unfold mergeItems in Hin. apply elem_of_app in Hin as [Hin|Hin].
    - apply list_elem_of_fmap in Hin as (na' & [= ->] & Hin). done.
    - apply list_elem_of_fmap in Hin as (? & ? & _). discriminate. }
  destruct (mergeItems_fold cfg p c pid cid Hpc Hlvl _ _ _ Hcom Hph)
    as (s1 & Hs1 & Hcom1 & Hph1).
  rewrite itemNode_mergeItems in Hph1.
  pose proof (foldl_next_BothPending p c (pendingNodes s) Hp) as Hstarted.
  exists s1. rewrite merge_as_fold. fold s0. rewrite Hs1.
  set (s1' := setFrameCount frame s1).
  assert (mLoadedNodes s1 = []) as Hl1 by (by destruct Hcom1 as (_ & _ & _ & _ & ?)).
  assert (pendingAt (mergeItems s1') (withUnmerged [] (withLoaded [] s1'))
          = pendingAt [] s1) as Hpa.
  { rewrite pendingAt_start. unfold pendingNodes, pendingAt. simpl.
    by rewrite Hl1, app_nil_r. }
  assert (common p c pid cid (mergeItems s1') (withUnmerged [] (withLoaded [] s1')))
    as Hcom2 by (by eapply common_transport).
  assert (itemNode <$> mergeItems s1' = pendingAt [] s1) as Hnodes.
  { rewrite itemNode_mergeItems. unfold pendingNodes, pendingAt. simpl.
    by rewrite Hl1, app_nil_r. }
  destruct (foldl (next p c) BothPending (pendingNodes s)) eqn:Hph1eq;
    [done | |]; simpl in Hph1.
  - destruct Hph1 as (Hc1 & Hcid1 & Hrp1 & Hrc1 & Hfree1).
    assert (phaseInv cfg p c pid cid ParentIn (mergeItems s1')
              (withUnmerged [] (withLoaded [] s1'))) as Hph2.
    { simpl. rewrite Hpa. done. }
    destruct (mergeItems_fold cfg p c pid cid Hpc Hlvl _ _ _ Hcom2 Hph2)
      as (s2 & Hs2 & _ & Hph2').
    rewrite Hnodes, (foldl_next_ParentIn p c _ Hc1) in Hph2'.
    exists s2. rewrite merge_as_fold. done.
  - assert (phaseInv cfg p c pid cid Linked (mergeItems s1')
              (withUnmerged [] (withLoaded [] s1'))) as Hph2 by done.
    destruct (mergeItems_fold cfg p c pid cid Hpc Hlvl _ _ _ Hcom2 Hph2)
      as (s2 & Hs2 & _ & Hph2').
    rewrite foldl_next_Linked in Hph2'.
    exists s2. rewrite merge_as_fold. split_and!; try done. by destruct Hph1.
Qed.

End MergeFacts.

(** * The theorems at work on the example tree *)

(** [delete] where ownership is broken.  With node 2 in two slots of
    node 1, replacing it in slot 0 deletes it and leaves slot 1 dangling;
    emptying slot 1 next deletes it a second time.  Deleting node 1 itself
    deletes node 2 twice as well. *)
Example delete_of_a_node_held_twice :
  destroy 1%positive exampleShared = Undefined ∧
  ∃ h, setChild 1%positive 0 (Some 3%positive) exampleShared = Ok h ∧
       getChild 1%positive 1 h = Ok (Some 2%positive) ∧
       h !! 2%positive = None ∧
       setChild 1%positive 1 None h = Undefined.
Proof.
  split; [vm_compute; reflexivity |].
  destruct (setChild 1%positive 0 (Some 3%positive) exampleShared)
    as [h| |] eqn:Hset; [| vm_compute in Hset; discriminate Hset ..].
  exists h. vm_compute in Hset. injection Hset as <-.
  split_and!; vm_compute; reflexivity.
Qed.

(** With a child pointer of node 2 that points to no node, the [reset] that
    replaces node 2 deletes through that pointer. *)
Example delete_through_a_dangling_child :
  destroy 2%positive exampleDangling = Undefined ∧
  setChild 1%positive 0 (Some 3%positive) exampleDangling = Undefined.
Proof. split; vm_compute; reflexivity. Qed.

(** C2 as stated, with the slot fixed as the quadrant of the node's own
    TileId, does not hold: [setChild] takes any index between 0 and 3 and
    does not look at the tile of the child.  Node 2 holds the tile (1, 1),
    whose quadrant is 1; after [setChild(0, node 2)] on node 1 it is
    reachable from node 1 and has node 1 as its parent, but slot 1 of node 1
    is empty.  The same happens whatever function assigns quadrants to
    TileIds: should 0 be the quadrant of the tile, slot 1 is taken
    instead. *)
Lemma own_quadrant_not_kept_by_setChild :
  noDanglingBackRefs exampleLoaded ∧ ownQuadrantBackRefs quadrant exampleLoaded ∧
  (∃ h', runOps [SetChild 1%positive 0 (Some 2%positive)] exampleLoaded = Ok h' ∧
         reachable h' 1%positive 2%positive ∧
         getParent 2%positive h' = Ok (Some 1%positive) ∧
         getTileId 2%positive h' = Ok (mkTileId 1 1) ∧
         quadrant (mkTileId 1 1) = 1 ∧
         getChild 1%positive 1 h' = Ok None ∧
         ¬ ownQuadrantBackRefs quadrant h') ∧
  (∀ quadrantOf : TileId → Z,
     ownQuadrantBackRefs quadrantOf exampleLoaded ∧
     ∃ i h', 0 ≤ i ≤ 3 ∧
             runOps [SetChild 1%positive i (Some 2%positive)] exampleLoaded = Ok h' ∧
             ¬ ownQuadrantBackRefs quadrantOf h').
Proof.
  set (node2 := mkTileNode (Some (mkPlainTile (mkTileId 1 1))) (Some 1%positive)
                  (Array4 None None None None)).
  set (after := λ a, (<[1%positive := mkTileNode (Some (mkPlainTile (mkTileId 0 0)))
                                         None a]> (<[2%positive := node2]> ∅)
                      : gmap positive (@TileNode PlainTile))).
  assert (∀ a, getParent 2%positive (after a) = Ok (Some 1%positive)) as Hp
    by reflexivity.
  assert (∀ a, getTileId 2%positive (after a) = Ok (mkTileId 1 1)) as Hid
    by reflexivity.
  assert (runOps [SetChild 1%positive 0 (Some 2%positive)] exampleLoaded
          = Ok (after (Array4 (Some 2%positive) None None None))) as Hrun0
    by (vm_compute; reflexivity).
  assert (runOps [SetChild 1%positive 1 (Some 2%positive)] exampleLoaded
          = Ok (after (Array4 None (Some 2%positive) None None))) as Hrun1
    by (vm_compute; reflexivity).
  assert (∀ quadrantOf, ownQuadrantBackRefs quadrantOf exampleLoaded) as Hbefore.
  { intros quadrantOf. apply ownQuadrant_parentless.
    apply (bool_decide_unpack _). vm_compute. exact I. }
  assert (∀ quadrantOf a,
            getChild 1%positive (quadrantOf (mkTileId 1 1)) (after a)
              ≠ Ok (Some 2%positive) →
            ¬ ownQuadrantBackRefs quadrantOf (after a)) as Hbroken.
  { intros quadrantOf a Hslot Hq. apply Hslot. apply Hq; [apply Hp | apply Hid]. }
  split_and!.
  - apply noDangling_parentless. apply (bool_decide_unpack _). vm_compute. exact I.
  - apply Hbefore.
  - exists (after (Array4 (Some 2%positive) None None None)).
    split_and!; [exact Hrun0 | | apply Hp | apply Hid | reflexivity | reflexivity |].
    + eapply (reachable_child _ _ 1%positive 0); [| reflexivity].
      apply reachable_root. by eexists.
    + by apply Hbroken.
  - intros quadrantOf. split; [apply Hbefore |].
    destruct (decide (quadrantOf (mkTileId 1 1) = 0)) as [Hq0|Hq0].
    + exists 1, (after (Array4 None (Some 2%positive) None None)).
      split; [lia |]. split; [exact Hrun1 |].
      apply Hbroken. by rewrite Hq0.
    + exists 0, (after (Array4 (Some 2%positive) None None None)).
      split; [lia |]. split; [exact Hrun0 |].
      apply Hbroken. unfold getChild, deref, after. rewrite lookup_insert_eq. simpl.
      unfold array_at. simpl. repeat case_decide; done.
Qed.


(** Ownership in the example tree is consistent. *)
Lemma exampleTree_slots p q c :
  getChild p q exampleTree = Ok (Some c) → p = 1%positive ∧ q = 0 ∧ c = 2%positive.
Proof.
  intros (n & Hn & Hat)%getChild_Ok. unfold exampleTree in Hn.
  repeat (apply lookup_insert_Some in Hn as [[<- <-]|[? Hn]]);
    [| | | by apply lookup_empty_Some in Hn];
    unfold array_at in Hat; simpl in Hat; repeat case_decide; by simplify_eq.
Qed.

Lemma exampleTree_ownership :
  ownersAgree exampleTree ∧ noSharedSlot exampleTree ∧ detached 3%positive exampleTree.
Proof.
  split_and!.
  - intros p q c (-> & -> & ->)%exampleTree_slots. reflexivity.
  - intros p q q' c (_ & -> & _)%exampleTree_slots (_ & -> & _)%exampleTree_slots.
    reflexivity.
  - intros p q (_ & _ & [=])%exampleTree_slots.
Qed.

Lemma child_access_in_range_never_throws_example :
  0 ≤ 2 ≤ 3 ∧
  getChild 1%positive 2 exampleTree ≠ OutOfRange ∧
  setChild 1%positive 2 (Some 3%positive) exampleTree ≠ OutOfRange ∧
  releaseChild 1%positive 2 exampleTree ≠ OutOfRange.
Proof.
  assert (0 ≤ 2 ≤ 3) as Hi by lia. split; [exact Hi |].
  destruct (child_access_in_range_never_throws exampleTree 1%positive 2
              (Some 3%positive) Hi) as (H1 & H2 & H3 & _).
  split_and!; assumption.
Defined.

Lemma accessors_defined_while_tile_present_example :
  getLevel 1%positive exampleTree = Ok 0 ∧
  getPatchIdx 1%positive exampleTree = Ok 0 ∧
  getTileId 1%positive exampleTree = Ok (mkTileId 0 0) ∧
  getTileTypeId 1%positive exampleTree = Ok "PlainTile"%string.
Proof.
  destruct (accessors_defined_while_tile_present exampleTree 1%positive _ eq_refl)
    as (H & _).
  exact (H _ eq_refl).
Defined.

Lemma tile_swap_keeps_tree_position_example :
  ∃ h1, setTile 1%positive None exampleTree = Ok h1 ∧
        getChild 1%positive 0 h1 = Ok (Some 2%positive) ∧
        getParent 2%positive h1 = Ok (Some 1%positive).
Proof.
  destruct (tile_swap_keeps_tree_position exampleTree 1%positive None)
    as (h1 & h2 & old & Hset & _ & _ & _ & _ & Hframe).
  { apply (bool_decide_unpack _). vm_compute. exact I. }
  exists h1. split; [exact Hset |]. split.
  - destruct (Hframe 1%positive) as (_ & _ & Hch & _).
    destruct (Hch 0) as [-> _]. reflexivity.
  - destruct (Hframe 2%positive) as (-> & _). reflexivity.
Defined.

Lemma isRefined_iff_four_children_example :
  isRefined 1%positive exampleTree = Ok false.
Proof.
  destruct (isRefined_iff_four_children exampleTree 1%positive) as (b & Hb & Hiff).
  { apply (bool_decide_unpack _). vm_compute. exact I. }
  rewrite Hb. destruct b; [| reflexivity].
  destruct (proj1 Hiff eq_refl) as (_ & [a Ha] & _). discriminate Ha.
Defined.

Lemma releaseChild_empty_slot_example :
  getChild 1%positive 3 exampleTree = Ok None ∧
  releaseChild 1%positive 3 exampleTree = Ok (exampleTree, None).
Proof.
  assert (getChild 1%positive 3 exampleTree = Ok None) as H by reflexivity.
  split; [exact H |]. exact (releaseChild_empty_slot exampleTree 1%positive 3 H).
Defined.

Lemma releaseChild_returns_detached_child_example :
  ∃ h', releaseChild 1%positive 0 exampleTree = Ok (h', Some 2%positive) ∧
        getChild 1%positive 0 h' = Ok None ∧
        getParent 2%positive h' = Ok None.
Proof.
  destruct (releaseChild_returns_detached_child exampleTree 1%positive 0
              (Some 2%positive)) as (h' & Hrel & Hslot & Hpar & _).
  - reflexivity.
  - intros cp [= <-]. apply (bool_decide_unpack _). vm_compute. exact I.
  - exists h'. split_and!; [exact Hrel | exact Hslot | exact (Hpar _ eq_refl)].
Defined.


Lemma back_references_preserved_example :
  noDanglingBackRefs exampleLoaded ∧
  ∃ h', runOps [SetChild 1%positive 1 (Some 2%positive);
                ReleaseChild 1%positive 1;
                SetChild 1%positive 1 (Some 2%positive);
                SetChild 1%positive 1 None] exampleLoaded = Ok h' ∧
        noDanglingBackRefs h' ∧ ownQuadrantBackRefs quadrant h'.
Proof.
  assert (noDanglingBackRefs exampleLoaded) as Hinv.
  { apply noDangling_parentless. apply (bool_decide_unpack _). vm_compute. exact I. }
  assert (ownQuadrantBackRefs quadrant exampleLoaded) as Hq.
  { apply ownQuadrant_parentless. apply (bool_decide_unpack _). vm_compute. exact I. }
  split; [exact Hinv |].
  destruct (runOps [SetChild 1%positive 1 (Some 2%positive);
                    ReleaseChild 1%positive 1;
                    SetChild 1%positive 1 (Some 2%positive);
                    SetChild 1%positive 1 None] exampleLoaded)
    as [h'| |] eqn:Hrun; [| vm_compute in Hrun; discriminate Hrun ..].
  exists h'. split; [reflexivity |].
  destruct (back_references_preserved _ _ _ Hinv Hrun) as (Hinv' & _ & Hq').
  split; [exact Hinv' |]. apply (Hq' quadrant); [exact Hq |].
  split; [intros id Hid; vm_compute in Hid; by injection Hid as <- |].
  intros h1 H1. vm_compute in H1. injection H1 as <-.
  split; [exact I |].
  intros h2 H2. vm_compute in H2. injection H2 as <-.
  split; [intros id Hid; vm_compute in Hid; by injection Hid as <- |].
  intros h3 H3. vm_compute in H3. injection H3 as <-.
  split; [exact I |]. intros h4 _. exact I.
Defined.

Lemma child_before_parent_merge_links_both_example :
  ∃ s1 s2,
    merge exampleConfig exampleManager = Ok s1 ∧
    mRdMap s1 !! mkTileId 0 0 = Some 1%positive ∧
    merge exampleConfig (setFrameCount 1 s1) = Ok s2 ∧
    linked 1%positive 2%positive (mkTileId 0 0) (mkTileId 1 1) s2.
Proof.
  apply (child_before_parent_merge_links_both exampleConfig exampleManager
           1%positive 2%positive (mkTileId 0 0) (mkTileId 1 1) 1).
  - split_and!.
    + apply (bool_decide_unpack _). vm_compute. exact I.
    + intros x Hx. simpl in Hx.
      apply elem_of_cons in Hx as [->|Hx];
        [| apply elem_of_cons in Hx as [->|Hx]; [| by apply elem_of_nil in Hx]];
        eexists; reflexivity.
    + intros id n Hn. discriminate Hn.
  - reflexivity.
  - reflexivity.
  - reflexivity.
  - simpl. lia.
  - reflexivity.
  - reflexivity.
  - intros x Hx. simpl in Hx.
    apply elem_of_cons in Hx as [->|Hx];
      [| apply elem_of_cons in Hx as [->|Hx]; [| by apply elem_of_nil in Hx]];
      split; intros H; vm_compute in H; first [reflexivity | discriminate H].
  - reflexivity.
  - right. exists [], [], []. reflexivity.
  - intros na Hna. by apply elem_of_nil in Hna.
Defined.

(** The scenario of section 8: the root holds the level 0 node, which holds
    the two level 1 nodes in their quadrants; no node is left unmerged. *)
Example scenario_child_parent_sibling :
  (s ← scenarioRun;
   Ok (mTree s !! 0, getChild 1%positive 0 (mHeap s), getChild 1%positive 1 (mHeap s),
       getParent 2%positive (mHeap s), getParent 3%positive (mHeap s),
       mUnmergedNodes s, size (mRdMap s)))
  = Ok (Some 1%positive, Ok (Some 3%positive), Ok (Some 2%positive),
        Ok (Some 1%positive), Ok (Some 1%positive), [], 3%nat).
Proof. vm_compute. reflexivity. Qed.

(** * Further properties of TileNode *)

Section TileNodeMore.
Context {TileBase : Type} `{!TileBaseOps TileBase}.
Implicit Types (h : gmap positive (@TileNode TileBase)) (n : @TileNode TileBase).

(** ** Index out of range *)

(** X1: On a live node a child index outside 0..3 makes each of the three child
    operations throw [std::out_of_range]: the first [at] of the function
    body throws before anything is written. *)
Theorem child_index_out_of_range_throws h this i child :
  is_Some (h !! this) → ¬ 0 ≤ i ≤ 3 →
  getChild this i h = OutOfRange ∧
  setChild this i child h = OutOfRange ∧
  releaseChild this i h = OutOfRange.
Proof.
  intros Hlive Hi.
  assert (getChild this i h = OutOfRange) as Hget
    by (by apply getChild_out_of_range).
  split_and!; [done | |].
  - unfold setChild, unsetOldParent. by rewrite Hget.
  - unfold releaseChild, unsetOldParent. by rewrite Hget.
Qed.

(** ** The payload *)

(** X2: [releaseTile] followed by [setTile] of what it returned restores the
    store; [setTile] followed by [releaseTile] hands back the tile that was
    set, and a second [releaseTile] returns null. *)
Theorem tile_release_set_round_trip h this tile :
  is_Some (h !! this) →
  (∃ h1 old, releaseTile this h = Ok (h1, old) ∧ setTile this old h1 = Ok h) ∧
  (∃ h1 h2, setTile this tile h = Ok h1 ∧ releaseTile this h1 = Ok (h2, tile) ∧
            releaseTile this h2 = Ok (h2, None)).
Proof.
  intros [n Hn]. unfold releaseTile, setTile, deref. rewrite Hn. simpl. split.
  - do 2 eexists. split; [done |]. rewrite lookup_insert_eq. simpl.
    rewrite insert_insert_eq. f_equal. rewrite node_eta. by apply insert_id.
  - do 2 eexists. split; [done |]. rewrite lookup_insert_eq. simpl.
    split; [done |]. rewrite lookup_insert_eq. simpl.
    by rewrite !insert_insert_eq.
Qed.

(** ** What [releaseChild] touches *)

Lemma releaseChild_stages h this i h' c :
  releaseChild this i h = Ok (h', c) →
  ∃ h1, getChild this i h = Ok c ∧ unsetOldParent this i h = Ok h1 ∧
        exchangeSlot this i None h1 = Ok (h', c).
Proof.
  unfold releaseChild. intros (h1 & Hun & Hex)%bind_Ok. exists h1.
  split_and!; [| done | done].
  apply exchangeSlot_getChild in Hex as (Hc & _). rewrite <- Hc. symmetry.
  apply getChild_children. by eapply unsetOldParent_children.
Qed.

Lemma unsetOldParent_parent h this i h1 k :
  unsetOldParent this i h = Ok h1 → getChild this i h ≠ Ok (Some k) →
  getParent k h1 = getParent k h.
Proof.
  intros (old & Hold & H)%unsetOldParent_Ok Hk. destruct old as [o|]; [| by subst].
  unfold getParent, deref. rewrite (setParent_lookup _ _ _ _ k H).
  rewrite decide_False; [done |]. intros ->. done.
Qed.

Lemma exchangeSlot_parent h this i v h' old k :
  exchangeSlot this i v h = Ok (h', old) → getParent k h' = getParent k h.
Proof.
  intros Hex. destruct (decide (k = this)) as [->|Hk].
  - by apply exchangeSlot_getChild in Hex as (_ & _ & ? & _).
  - unfold getParent, deref. by rewrite (exchangeSlot_lookup _ _ _ _ _ _ k Hex Hk).
Qed.

Lemma exchangeSlot_other_slots h this i v h' old k j :
  exchangeSlot this i v h = Ok (h', old) → (k, j) ≠ (this, i) →
  getChild k j h' = getChild k j h.
Proof.
  intros Hex Hne. destruct (decide (k = this)) as [->|Hk].
  - apply exchangeSlot_getChild in Hex as (_ & _ & _ & Hj). apply Hj. congruence.
  - unfold getChild, deref. by rewrite (exchangeSlot_lookup _ _ _ _ _ _ k Hex Hk).
Qed.

(** X3: [releaseChild] frees no node and changes no payload; every slot other
    than the released one and every back-reference other than that of the
    released child reads as before. *)
Theorem releaseChild_frees_nothing h this i h' c :
  releaseChild this i h = Ok (h', c) →
  (∀ k, is_Some (h' !! k) ↔ is_Some (h !! k)) ∧
  (∀ k, getTile k h' = getTile k h) ∧
  (∀ k j, (k, j) ≠ (this, i) → getChild k j h' = getChild k j h) ∧
  (∀ k, c ≠ Some k → getParent k h' = getParent k h).
Proof.
  intros (h1 & Hc & Hun & Hex)%releaseChild_stages. split_and!.
  - intros k. rewrite (exchangeSlot_is_Some _ _ _ _ _ _ k Hex).
    apply children_is_Some. by eapply unsetOldParent_children.
  - intros k. apply getTile_tile.
    rewrite (exchangeSlot_tile _ _ _ _ _ _ k Hex). by eapply unsetOldParent_tile.
  - intros k j Hne. rewrite (exchangeSlot_other_slots _ _ _ _ _ _ k j Hex Hne).
    apply getChild_children. by eapply unsetOldParent_children.
  - intros k Hk. rewrite (exchangeSlot_parent _ _ _ _ _ _ k Hex).
    eapply unsetOldParent_parent; [done |]. congruence.
Qed.

(** X4: Releasing the same slot a second time returns null and changes
    nothing. *)
Theorem releaseChild_twice h this i h1 c :
  releaseChild this i h = Ok (h1, c) →
  releaseChild this i h1 = Ok (h1, None).
Proof.
  intros (h0 & _ & _ & Hex)%releaseChild_stages.
  apply exchangeSlot_getChild in Hex as (_ & Hnone & _).
  unfold releaseChild, unsetOldParent. rewrite Hnone. simpl.
  by apply exchangeSlot_same.
Qed.

(** ** Setting the child that is already there *)

(** X5: [setChild(i, getChild(i))] with a non-null child is a use after free:
    [reset] deletes the node it has just been given, and the call then
    dereferences it. *)
Theorem setChild_same_child_undefined h this i c :
  getChild this i h = Ok (Some c) →
  setChild this i (Some c) h = Undefined.
Proof.
  intros Hc. unfold setChild, unsetOldParent. rewrite Hc. simpl.
  destruct (setParent c None h) as [h1| |] eqn:Hset; simpl; try done.
  2: { by destruct (setParent_not_OutOfRange h c None). }
  assert (getChild this i h1 = Ok (Some c)) as Hc1.
  { rewrite <- Hc. apply getChild_children. by eapply setParent_children. }
  destruct (exchangeSlot_live h1 this i (Some c) _ Hc1) as [h1' Hex].
  unfold resetSlot. rewrite Hex. simpl.
  destruct (destroy c h1') as [h2| |] eqn:Hd; simpl; try done.
  2: { by destruct (destroy_not_OutOfRange c h1'). }
  apply destroy_Ok in Hd as ->.
  unfold setNewParent, getChild, deref. rewrite sweep_lookup.
  case_decide as Hthis; simpl; [done |].
  apply exchangeSlot_getChild in Hex as (_ & Hnew & _).
  apply getChild_Ok in Hnew as (n & Hn & Hat). rewrite Hn. simpl.
  rewrite Hat. simpl. unfold setParent, deref. rewrite sweep_lookup.
  rewrite decide_True; [done | apply owned_self].
Qed.

(** ** What [setChild] frees *)

Lemma setNewParent_Ok h this i h' :
  setNewParent this i h = Ok h' →
  ∃ c, getChild this i h = Ok c ∧
       match c with
       | Some new => setParent new (Some this) h = Ok h'
       | None => h' = h
       end.
Proof.
  unfold setNewParent. intros (c & Hc & H)%bind_Ok. exists c.
  split; [done |]. destruct c; [done | congruence].
Qed.

Lemma setChild_stages h this i child h3 :
  setChild this i child h = Ok h3 →
  ∃ old h1 h1',
    getChild this i h = Ok old ∧ unsetOldParent this i h = Ok h1 ∧
    exchangeSlot this i child h1 = Ok (h1', old) ∧
    setNewParent this i (match old with Some o => sweep o h1' | None => h1' end)
    = Ok h3.
Proof.
  unfold setChild. intros (h1 & Hun & H)%bind_Ok.
  apply bind_Ok in H as (h2 & Hreset & Hnew).
  unfold resetSlot in Hreset. apply bind_Ok in Hreset as ([h1' old] & Hex & Hd).
  exists old, h1, h1'. split_and!; [| done | done |].
  - apply exchangeSlot_getChild in Hex as (Hc & _). rewrite <- Hc. symmetry.
    apply getChild_children. by eapply unsetOldParent_children.
  - destruct old as [o|]; simplify_eq; [| done].
    by apply destroy_Ok in Hd as ->.
Qed.

(** While the owner survives, the set freed with its replaced child is the
    one the child owned before the call. *)
Lemma owned_after_exchange h this i child h1 h1' old o :
  unsetOldParent this i h = Ok h1 →
  exchangeSlot this i child h1 = Ok (h1', old) →
  this ∉ owned h1' o → owned h1' o = owned h o.
Proof.
  intros Hun Hex Hthis. symmetry.
  assert (∀ k, is_Some (h !! k) ↔ is_Some (h1' !! k)) as Hdom.
  { intros k. rewrite (exchangeSlot_is_Some _ _ _ _ _ _ k Hex). symmetry.
    apply children_is_Some. by eapply unsetOldParent_children. }
  apply owned_ext; [by apply same_dom_size |].
  intros q Hq. apply liveChildren_ext; [done |].
  rewrite (exchangeSlot_lookup _ _ _ _ _ _ q Hex) by (by intros ->).
  symmetry. by eapply unsetOldParent_children.
Qed.

(** X6: A successful [setChild] frees exactly the nodes owned by the child it
    replaces (that child and everything below it), and nothing when the slot
    was empty; every other node apart from [this] and the new child is left
    as it was. *)
Theorem setChild_frees_replaced_subtree h this i child h' old :
  getChild this i h = Ok old → setChild this i child h = Ok h' →
  (∀ k, is_Some (h' !! k) ↔
        is_Some (h !! k) ∧ ∀ o, old = Some o → k ∉ owned h o) ∧
  (∀ k, k ≠ this → child ≠ Some k → is_Some (h' !! k) → h' !! k = h !! k).
Proof.
  intros Hold (old' & h1 & h1' & Hold' & Hun & Hex & Hnew)%setChild_stages.
  rewrite Hold in Hold'. injection Hold' as <-.
  set (h2 := match old with Some o => sweep o h1' | None => h1' end) in *.
  apply setNewParent_Ok in Hnew as (c & Hc & Hset).
  assert (∀ k, is_Some (h' !! k) ↔ is_Some (h2 !! k)) as Hdom3.
  { intros k. destruct c; [| by subst].
    apply children_is_Some. by eapply setParent_children. }
  assert (∀ k, is_Some (h1' !! k) ↔ is_Some (h !! k)) as Hdom1.
  { intros k. rewrite (exchangeSlot_is_Some _ _ _ _ _ _ k Hex).
    apply children_is_Some. by eapply unsetOldParent_children. }
  assert (∀ o, old = Some o → owned h1' o = owned h o) as Howned.
  { intros o ->. eapply owned_after_exchange; [done | done |].
    intros Hin. apply getChild_Ok in Hc as (n & Hn & _). subst h2.
    rewrite sweep_lookup, decide_True in Hn; done. }
  assert (∀ k, is_Some (h2 !! k) ↔
               is_Some (h !! k) ∧ ∀ o, old = Some o → k ∉ owned h o) as Hdom2.
  { intros k. subst h2. destruct old as [o|].
    - rewrite sweep_lookup, (Howned o eq_refl), <- Hdom1. case_decide.
      + split; [by intros [? ?] |]. intros [_ Hno]. by destruct (Hno o eq_refl).
      + split; [| by intros [? _]]. intros Hs. split; [done |]. by intros ? [= <-].
    - rewrite Hdom1. split; [| by intros [? _]]. intros Hs. split; [done |]. done. }
  split.
  - intros k. by rewrite Hdom3, Hdom2.
  - intros k Hthis Hchild Hlive.
    assert (c = child) as ->.
    { assert (getChild this i h2 = Ok child) as Hc2; [| congruence].
      apply exchangeSlot_getChild in Hex as (_ & Hnew & _).
      rewrite <- Hnew. unfold getChild, deref. subst h2.
      destruct old as [o|]; [| done].
      apply getChild_Ok in Hc as (n & Hn & _).
      rewrite sweep_lookup in Hn |- *. by case_decide. }
    assert (h' !! k = h2 !! k) as ->.
    { destruct child as [cn|]; [| by subst].
      rewrite (setParent_lookup _ _ _ _ k Hset). rewrite decide_False; [done |].
      congruence. }
    apply Hdom3, Hdom2 in Hlive as [Hlive Hno].
    assert (h2 !! k = h1' !! k) as ->.
    { subst h2. destruct old as [o|]; [| done].
      rewrite sweep_lookup, decide_False; [done |].
      rewrite (Howned o eq_refl). by apply Hno. }
    rewrite (exchangeSlot_lookup _ _ _ _ _ _ k Hex Hthis).
    apply unsetOldParent_Ok in Hun as (old' & Hold' & Hun).
    rewrite Hold in Hold'. injection Hold' as <-.
    destruct old as [o|]; [| by subst].
    rewrite (setParent_lookup _ _ _ _ k Hun). rewrite decide_False; [done |].
    intros ->. apply (Hno o eq_refl). apply owned_self.
Qed.

(** ** Ownership is kept consistent *)

Lemma getChild_sweep h o p q x :
  getChild p q (sweep o h) = Ok (Some x) →
  (p ∉ owned h o) ∧ getChild p q h = Ok (Some x).
Proof.
  intros (n & Hn & Hat)%getChild_Ok. apply sweep_lookup_Some in Hn as [Hn Hp].
  split; [done |]. apply getChild_Ok. eauto.
Qed.

Lemma getParent_sweep h o x :
  x ∉ owned h o → getParent x (sweep o h) = getParent x h.
Proof.
  intros Hx. unfold getParent, deref. by rewrite sweep_lookup, decide_False.
Qed.

(** X7: [setChild] with a null child or with a node that no slot holds keeps
    ownership consistent: afterwards every occupied slot points to a live
    node whose back-reference names the owner of the slot, and no node sits
    in two slots of a parent. *)
Theorem setChild_keeps_ownership h this i child h' :
  ownersAgree h → noSharedSlot h →
  (∀ c, child = Some c → detached c h) →
  setChild this i child h = Ok h' →
  ownersAgree h' ∧ noSharedSlot h'.
Proof.
  intros Hown Hslot Hdet (old & h1 & h1' & Hold & Hun & Hex & Hnew)%setChild_stages.
  set (h2 := match old with Some o => sweep o h1' | None => h1' end) in *.
  apply setNewParent_Ok in Hnew as (c & Hc & Hset).
  assert (∀ k j, getChild k j h1 = getChild k j h) as Hch1.
  { intros k j. apply getChild_children. by eapply unsetOldParent_children. }
  assert (∀ k j, getChild k j h' = getChild k j h2) as Hch3.
  { intros k j. destruct c; [| by subst].
    apply getChild_children. by eapply setParent_children. }
  pose proof (exchangeSlot_getChild _ _ _ _ _ _ Hex) as (_ & Hslot1 & _).
  assert (∀ p q x, getChild p q h2 = Ok (Some x) →
                   getChild p q h1' = Ok (Some x) ∧
                   ∀ o, old = Some o → p ∉ owned h1' o) as Hch2.
  { intros p q x Hx. subst h2. destruct old as [o|]; [| done].
    apply getChild_sweep in Hx as [? ?]. split; [done |]. by intros ? [= <-]. }
  assert (c = child) as ->.
  { destruct (decide (c = child)) as [|Hne]; [done |].
    apply getChild_Ok in Hc as (n & Hn & Hat).
    assert (h1' !! this = Some n) as Hn1.
    { subst h2. destruct old; [| done]. by apply sweep_lookup_Some in Hn as [? _]. }
    apply getChild_Ok in Hslot1 as (n' & Hn' & Hat'). congruence. }
  (* a slot other than the one written holds what it held before *)
  assert (∀ p q x, getChild p q h' = Ok (Some x) → (p, q) ≠ (this, i) →
                   getChild p q h = Ok (Some x) ∧
                   ∀ o, old = Some o → p ∉ owned h1' o) as Hother.
  { intros p q x Hx Hne. rewrite Hch3 in Hx. apply Hch2 in Hx as [Hx Hp].
    rewrite (exchangeSlot_other_slots _ _ _ _ _ _ p q Hex Hne), Hch1 in Hx. done. }
  assert (∀ o, old = Some o → this ∉ owned h1' o) as Hthis.
  { intros o -> Hin. apply getChild_Ok in Hc as (n & Hn & _). subst h2.
    rewrite sweep_lookup, decide_True in Hn; done. }
  split.
  - intros p q x Hx. destruct (decide ((p, q) = (this, i))) as [[= -> ->]|Hne].
    + rewrite Hch3, Hc in Hx. injection Hx as ->.
      pose proof (setParent_lookup _ _ _ _ x Hset) as Hl.
      rewrite decide_True in Hl by done.
      apply setParent_Ok in Hset as (n & Hn & _). rewrite Hn in Hl.
      apply getParent_Ok. eauto.
    + destruct (Hother p q x Hx Hne) as [Hx0 Hp].
      pose proof (Hown _ _ _ Hx0) as Hpar.
      assert (old ≠ Some x) as Hox.
      { intros Heq. rewrite Heq in Hold. apply Hne.
        by eapply (sole_slot h). }
      assert (child ≠ Some x) as Hcx.
      { intros Heq. by apply (Hdet x Heq p q). }
      assert (getParent x h1' = Ok (Some p)) as Hpar1.
      { rewrite (exchangeSlot_parent _ _ _ _ _ _ x Hex).
        rewrite (unsetOldParent_parent _ _ _ _ x Hun); [done |]. congruence. }
      assert (getParent x h2 = Ok (Some p)) as Hpar2.
      { subst h2. destruct old as [o|]; [| done].
        rewrite getParent_sweep; [done |].
        intros [->|(e & j & He & Hej)]%owned_inv; [done |].
        destruct (decide ((e, j) = (this, i))) as [[= -> ->]|Hej'].
        - by apply (Hthis o).
        - rewrite (exchangeSlot_other_slots _ _ _ _ _ _ e j Hex Hej'), Hch1 in Hej.
          pose proof (Hown _ _ _ Hej) as Hpe.
          assert (e = p) as -> by congruence. by apply (Hp o). }
      destruct child as [cn|]; [| by subst].
      unfold getParent, deref. rewrite (setParent_lookup _ _ _ _ x Hset).
      rewrite decide_False by congruence. done.
  - intros p q q' x Hx Hx'.
    destruct (decide ((p, q) = (this, i))) as [Heq|Hne];
      destruct (decide ((p, q') = (this, i))) as [Heq'|Hne'].
    + congruence.
    + injection Heq as -> ->. rewrite Hch3, Hc in Hx. injection Hx as ->.
      destruct (Hother _ _ _ Hx' Hne') as [Hx0 _].
      by destruct (Hdet x eq_refl this q').
    + injection Heq' as -> ->. rewrite Hch3, Hc in Hx'. injection Hx' as ->.
      destruct (Hother _ _ _ Hx Hne) as [Hx0 _].
      by destruct (Hdet x eq_refl this q).
    + destruct (Hother _ _ _ Hx Hne) as [Hx0 _].
      destruct (Hother _ _ _ Hx' Hne') as [Hx0' _]. by eapply Hslot.
Qed.

(** X8: [releaseChild] keeps ownership consistent, and the node it returns is
    held by no slot any more. *)
Theorem releaseChild_keeps_ownership h this i h' c :
  ownersAgree h → noSharedSlot h →
  releaseChild this i h = Ok (h', c) →
  ownersAgree h' ∧ noSharedSlot h' ∧ ∀ x, c = Some x → detached x h'.
Proof.
  intros Hown Hslot (h1 & Hc & Hun & Hex)%releaseChild_stages.
  assert (∀ k j, getChild k j h1 = getChild k j h) as Hch1.
  { intros k j. apply getChild_children. by eapply unsetOldParent_children. }
  pose proof (exchangeSlot_getChild _ _ _ _ _ _ Hex) as (_ & Hnone & _).
  assert (∀ p q x, getChild p q h' = Ok (Some x) →
                   (p, q) ≠ (this, i) ∧ getChild p q h = Ok (Some x)) as Hother.
  { intros p q x Hx.
    assert ((p, q) ≠ (this, i)) as Hne by (intros [= -> ->]; congruence).
    split; [done |].
    by rewrite (exchangeSlot_other_slots _ _ _ _ _ _ p q Hex Hne), Hch1 in Hx. }
  split_and!.
  - intros p q x Hx. destruct (Hother _ _ _ Hx) as [Hne Hx0].
    rewrite (exchangeSlot_parent _ _ _ _ _ _ x Hex).
    rewrite (unsetOldParent_parent _ _ _ _ x Hun); [exact (Hown _ _ _ Hx0) |].
    intros Heq. apply Hne. by eapply (sole_slot h).
  - intros p q q' x Hx Hx'. destruct (Hother _ _ _ Hx) as [_ Hx0].
    destruct (Hother _ _ _ Hx') as [_ Hx0']. by eapply Hslot.
  - intros x -> p q Hx. destruct (Hother _ _ _ Hx) as [Hne Hx0].
    apply Hne. by eapply (sole_slot h).
Qed.

(** ** Release and set again *)

Lemma array_set_restore {A} (a a1 a2 : array4 A) (i : Z) (v w : A) :
  array_at a i = Ok w → array_set a i v = Ok a1 → array_set a1 i w = Ok a2 →
  a2 = a.
Proof.
  destruct a. unfold array_at, array_set. simpl.
  repeat case_decide; intros; simplify_eq; reflexivity.
Qed.

(** Writing a slot and then writing back what it held restores the store. *)
Lemma exchangeSlot_restore h this i v h1 old h2 old' :
  exchangeSlot this i v h = Ok (h1, old) →
  exchangeSlot this i old h1 = Ok (h2, old') → h2 = h.
Proof.
  intros (n & a & Hn & Hat & Ha & ->)%exchangeSlot_Ok.
  intros (n1 & a1 & Hn1 & Hat1 & Ha1 & ->)%exchangeSlot_Ok.
  rewrite lookup_insert_eq in Hn1. injection Hn1 as <-. simpl in *.
  rewrite insert_insert_eq, (array_set_restore _ _ _ _ _ _ Hat Ha Ha1), node_eta.
  by apply insert_id.
Qed.

(** X9: [releaseChild] followed by [setChild] of the returned node into the same
    slot restores the store exactly, when the back-reference of the child
    named the node before. *)
Theorem releaseChild_setChild_round_trip h this i h1 c :
  releaseChild this i h = Ok (h1, Some c) →
  getParent c h = Ok (Some this) →
  setChild this i (Some c) h1 = Ok h.
Proof.
  intros (h0 & Hc & Hun & Hex)%releaseChild_stages Hpar.
  apply unsetOldParent_Ok in Hun as (old & Hold & Hun).
  rewrite Hc in Hold. injection Hold as <-.
  pose proof (exchangeSlot_getChild _ _ _ _ _ _ Hex) as (Hc0 & Hnone & _).
  destruct (exchangeSlot_live h1 this i (Some c) None Hnone) as [h2 Hex2].
  assert (h2 = h0) as -> by (by eapply exchangeSlot_restore).
  unfold setChild, unsetOldParent. rewrite Hnone. simpl.
  unfold resetSlot. rewrite Hex2. simpl.
  unfold setNewParent. rewrite Hc0. simpl.
  apply setParent_Ok in Hun as (nc & Hnc & ->).
  unfold setParent, deref. rewrite lookup_insert_eq. simpl.
  rewrite insert_insert_eq. f_equal.
  apply getParent_Ok in Hpar as (nc' & Hnc' & Hp). simplify_eq.
  rewrite <- Hp, node_eta. by apply insert_id.
Qed.

(** ** [setParent] is a back-reference only *)

(** X10: [setParent] writes the back-reference of one node and nothing else: no
    slot and no payload changes.  It does not make the node a child of the
    new parent, so unless that parent already holds the node the store has
    a back-reference that no slot answers. *)
Theorem setParent_sets_back_reference_only h this parent h' :
  setParent this parent h = Ok h' →
  getParent this h' = Ok parent ∧
  (∀ k, k ≠ this → getParent k h' = getParent k h) ∧
  (∀ k j, getChild k j h' = getChild k j h) ∧
  (∀ k, getTile k h' = getTile k h) ∧
  (∀ p, parent = Some p → (∀ q, getChild p q h ≠ Ok (Some this)) →
        ¬ noDanglingBackRefs h').
Proof.
  intros Hset.
  assert (getParent this h' = Ok parent) as Hpar.
  { pose proof (setParent_lookup _ _ _ _ this Hset) as Hl.
    rewrite decide_True in Hl by done.
    apply setParent_Ok in Hset as (n & Hn & _). rewrite Hn in Hl.
    apply getParent_Ok. eauto. }
  assert (∀ k j, getChild k j h' = getChild k j h) as Hch.
  { intros k j. apply getChild_children. by eapply setParent_children. }
  split_and!; [done | | done | |].
  - intros k Hk. unfold getParent, deref.
    by rewrite (setParent_lookup _ _ _ _ k Hset), decide_False.
  - intros k. apply getTile_tile. by eapply setParent_tile.
  - intros p -> Hnot Hinv.
    destruct (Hinv this p Hpar) as (q & _ & Hq). rewrite Hch in Hq.
    by apply (Hnot q).
Qed.

(** ** [isRefined] after a change of children *)

Lemma isRefined_spec h node :
  is_Some (h !! node) →
  ∃ b, isRefined node h = Ok b ∧
       (b = true ↔ ∀ j, 0 ≤ j ≤ 3 → ∃ x, getChild node j h = Ok (Some x)).
Proof.
  intros [n Hn]. unfold isRefined, getChild. rewrite (deref_live _ _ _ Hn).
  destruct n as [t p [[a|] [b|] [c|] [d|]]]; simpl; eexists;
    (split; [reflexivity |]); split; try discriminate;
    try (intros _ j Hj; unfold array_at; simpl; repeat case_decide; eauto; lia);
    intros Hall;
    try (destruct (Hall 0 ltac:(lia)) as [? ?]; discriminate);
    try (destruct (Hall 1 ltac:(lia)) as [? ?]; discriminate);
    try (destruct (Hall 2 ltac:(lia)) as [? ?]; discriminate);
    try (destruct (Hall 3 ltac:(lia)) as [? ?]; discriminate);
    done.
Qed.

Lemma setChild_slots h this i child h' :
  setChild this i child h = Ok h' →
  getChild this i h' = Ok child ∧
  ∀ j, j ≠ i → getChild this j h' = getChild this j h.
Proof.
  intros (old & h1 & h1' & Hold & Hun & Hex & Hnew)%setChild_stages.
  set (h2 := match old with Some o => sweep o h1' | None => h1' end) in *.
  apply setNewParent_Ok in Hnew as (c & Hc & Hset).
  assert (∀ j, getChild this j h' = getChild this j h1') as Hsame.
  { intros j. transitivity (getChild this j h2).
    - destruct c; [| by subst]. apply getChild_children.
      by eapply setParent_children.
    - apply getChild_Ok in Hc as (n & Hn & _). unfold getChild, deref. subst h2.
      destruct old as [o|]; [| done].
      rewrite sweep_lookup in Hn |- *. by case_decide. }
  pose proof (exchangeSlot_getChild _ _ _ _ _ _ Hex) as (_ & Hnew & _ & Hother).
  split; [by rewrite Hsame |].
  intros j Hj. rewrite Hsame, Hother by done.
  apply getChild_children. by eapply unsetOldParent_children.
Qed.

(** X11: After a successful [releaseChild] the node is not refined. *)
Theorem isRefined_after_releaseChild h this i h1 c :
  releaseChild this i h = Ok (h1, c) → isRefined this h1 = Ok false.
Proof.
  intros (h0 & _ & _ & Hex)%releaseChild_stages.
  apply exchangeSlot_getChild in Hex as (_ & Hnone & _).
  pose proof Hnone as (n & Hn & Hat)%getChild_Ok.
  destruct (isRefined_spec h1 this) as (b & Hb & Hiff); [by eauto |].
  rewrite Hb. f_equal. destruct b; [| done].
  destruct (proj1 Hiff eq_refl i (array_at_Ok _ _ _ Hat)) as [x Hx]. congruence.
Qed.

(** X12: After a successful [setChild(i, child)] the node is refined exactly when
    [child] is non-null and the other three slots were occupied. *)
Theorem isRefined_after_setChild h this i child h2 :
  setChild this i child h = Ok h2 →
  ∃ b, isRefined this h2 = Ok b ∧
       (b = true ↔
        is_Some child ∧
        ∀ j, 0 ≤ j ≤ 3 → j ≠ i → ∃ x, getChild this j h = Ok (Some x)).
Proof.
  intros Hset. destruct (setChild_slots _ _ _ _ _ Hset) as [Hnew Hother].
  pose proof Hnew as (n & Hn & Hat)%getChild_Ok.
  destruct (isRefined_spec h2 this) as (b & Hb & Hiff); [by eauto |].
  exists b. split; [done |]. rewrite Hiff. split.
  - intros Hall. split.
    + destruct (Hall i (array_at_Ok _ _ _ Hat)) as [x Hx].
      rewrite Hnew in Hx. injection Hx as ->. eauto.
    + intros j Hj Hji. rewrite <- Hother by done. by apply Hall.
  - intros [[x ->] Hall] j Hj. destruct (decide (j = i)) as [->|Hji]; [eauto |].
    rewrite Hother by done. by apply Hall.
Qed.

(** ** Moving a child to another slot *)

(** X13: A node released from one slot and set into an empty slot (of the same or
    of another node) ends up there with its back-reference updated; the
    slot it came from stays empty, no node is freed, and every other slot
    and every payload is as before. *)
Theorem released_child_moves_to_empty_slot h p1 i p2 j c h1 :
  releaseChild p1 i h = Ok (h1, Some c) →
  getChild p2 j h = Ok None → c ≠ p2 →
  ∃ h2, setChild p2 j (Some c) h1 = Ok h2 ∧
        getChild p1 i h2 = Ok None ∧
        getChild p2 j h2 = Ok (Some c) ∧
        getParent c h2 = Ok (Some p2) ∧
        (∀ k, is_Some (h2 !! k) ↔ is_Some (h !! k)) ∧
        (∀ k q, (k, q) ≠ (p1, i) → (k, q) ≠ (p2, j) →
                getChild k q h2 = getChild k q h) ∧
        (∀ k, getTile k h2 = getTile k h).
Proof.
  intros Hrel Hempty Hne.
  pose proof Hrel as (h0 & Hc & Hun & Hex)%releaseChild_stages.
  assert (∀ k, is_Some (h1 !! k) ↔ is_Some (h !! k)) as Hdom1.
  { intros k. rewrite (exchangeSlot_is_Some _ _ _ _ _ _ k Hex).
    apply children_is_Some. by eapply unsetOldParent_children. }
  assert (∀ k q, (k, q) ≠ (p1, i) → getChild k q h1 = getChild k q h) as Hch1.
  { intros k q Hkq. rewrite (exchangeSlot_other_slots _ _ _ _ _ _ k q Hex Hkq).
    apply getChild_children. by eapply unsetOldParent_children. }
  assert (∀ k, getTile k h1 = getTile k h) as Htile1.
  { intros k. apply getTile_tile.
    rewrite (exchangeSlot_tile _ _ _ _ _ _ k Hex). by eapply unsetOldParent_tile. }
  pose proof (exchangeSlot_getChild _ _ _ _ _ _ Hex) as (_ & Hnone & _).
  assert ((p2, j) ≠ (p1, i)) as Hslots by (intros [= -> ->]; congruence).
  assert (getChild p2 j h1 = Ok None) as Hempty1 by (by rewrite Hch1).
  apply getChild_Ok in Hempty1 as (n2 & Hn2 & Hat2).
  assert (is_Some (h1 !! c)) as [nc Hnc].
  { apply Hdom1. apply unsetOldParent_Ok in Hun as (old & Hold & Hset).
    rewrite Hc in Hold. injection Hold as <-.
    apply setParent_Ok in Hset as (? & ? & _). eauto. }
  destruct (setChild_attach _ _ _ _ _ _ Hn2 Hat2 Hnc Hne) as (a & Ha & Hset).
  eexists. split; [exact Hset |].
  assert (∀ k q, (k, q) ≠ (p2, j) →
    getChild k q (<[c:=mkTileNode (mTile nc) (Some p2) (mChildren nc)]>
                    (<[p2:=mkTileNode (mTile n2) (mParent n2) a]> h1))
    = getChild k q h1) as Hch2.
  { intros k q Hkq. unfold getChild, deref.
    destruct (decide (k = c)) as [->|Hkc].
    { by rewrite lookup_insert_eq, Hnc. }
    rewrite lookup_insert_ne by done.
    destruct (decide (k = p2)) as [->|Hkp].
    - rewrite lookup_insert_eq, Hn2. simpl.
      eapply array_at_set_ne; [done |]. congruence.
    - by rewrite lookup_insert_ne. }
  split_and!.
  - rewrite Hch2; [done | congruence].
  - unfold getChild, deref. rewrite lookup_insert_ne by done.
    rewrite lookup_insert_eq. simpl. by eapply array_at_set_eq.
  - unfold getParent, deref. by rewrite lookup_insert_eq.
  - intros k. rewrite <- Hdom1.
    destruct (decide (k = c)) as [->|Hkc].
    { rewrite lookup_insert_eq, Hnc. split; eauto. }
    rewrite lookup_insert_ne by done.
    destruct (decide (k = p2)) as [->|Hkp].
    + rewrite lookup_insert_eq, Hn2. split; eauto.
    + by rewrite lookup_insert_ne.
  - intros k q Hk1 Hk2. by rewrite Hch2, Hch1.
  - intros k. rewrite <- Htile1. unfold getTile, deref.
    destruct (decide (k = c)) as [->|Hkc].
    { by rewrite lookup_insert_eq, Hnc. }
    rewrite lookup_insert_ne by done.
    destruct (decide (k = p2)) as [->|Hkp].
    + by rewrite lookup_insert_eq, Hn2.
    + by rewrite lookup_insert_ne.
Qed.

End TileNodeMore.

(** * The further properties at work on the example tree *)

Lemma child_index_out_of_range_throws_example :
  getChild 1%positive 4 exampleTree = OutOfRange ∧
  setChild 1%positive 4 (Some 3%positive) exampleTree = OutOfRange ∧
  releaseChild 1%positive (-1) exampleTree = OutOfRange.
Proof.
  assert (is_Some (exampleTree !! 1%positive)) as Hlive
    by (apply (bool_decide_unpack _); vm_compute; exact I).
  destruct (child_index_out_of_range_throws exampleTree 1%positive 4
              (Some 3%positive) Hlive ltac:(lia)) as (H1 & H2 & _).
  destruct (child_index_out_of_range_throws exampleTree 1%positive (-1)
              None Hlive ltac:(lia)) as (_ & _ & H3).
  split_and!; assumption.
Defined.

Lemma tile_release_set_round_trip_example :
  ∃ h1 old, releaseTile 1%positive exampleTree = Ok (h1, old) ∧
            setTile 1%positive old h1 = Ok exampleTree.
Proof.
  apply (tile_release_set_round_trip exampleTree 1%positive None).
  apply (bool_decide_unpack _). vm_compute. exact I.
Defined.

Lemma releaseChild_frees_nothing_example :
  ∃ h', releaseChild 1%positive 0 exampleTree = Ok (h', Some 2%positive) ∧
        is_Some (h' !! 2%positive) ∧
        getTile 2%positive h' = getTile 2%positive exampleTree.
Proof.
  destruct (releaseChild 1%positive 0 exampleTree) as [[h' c]| |] eqn:Hrel;
    [| vm_compute in Hrel; discriminate Hrel ..].
  assert (c = Some 2%positive) as ->.
  { vm_compute in Hrel. injection Hrel as _ <-. reflexivity. }
  destruct (releaseChild_frees_nothing _ _ _ _ _ Hrel) as (Hdom & Htile & _).
  exists h'. split_and!; [reflexivity | | apply Htile].
  apply Hdom. apply (bool_decide_unpack _). vm_compute. exact I.
Defined.

Lemma releaseChild_twice_example :
  ∃ h1, releaseChild 1%positive 0 exampleTree = Ok (h1, Some 2%positive) ∧
        releaseChild 1%positive 0 h1 = Ok (h1, None).
Proof.
  destruct (releaseChild 1%positive 0 exampleTree) as [[h1 c]| |] eqn:Hrel;
    [| vm_compute in Hrel; discriminate Hrel ..].
  assert (c = Some 2%positive) as ->.
  { vm_compute in Hrel. injection Hrel as _ <-. reflexivity. }
  exists h1. split; [reflexivity |]. exact (releaseChild_twice _ _ _ _ _ Hrel).
Defined.

Lemma setChild_same_child_undefined_example :
  getChild 1%positive 0 exampleTree = Ok (Some 2%positive) ∧
  setChild 1%positive 0 (Some 2%positive) exampleTree = Undefined.
Proof.
  assert (getChild 1%positive 0 exampleTree = Ok (Some 2%positive)) as H
    by reflexivity.
  split; [exact H |]. exact (setChild_same_child_undefined _ _ _ _ H).
Defined.

Lemma setChild_frees_replaced_subtree_example :
  ∃ h', setChild 1%positive 0 (Some 3%positive) exampleTree = Ok h' ∧
        h' !! 2%positive = None ∧ is_Some (h' !! 3%positive).
Proof.
  destruct (setChild 1%positive 0 (Some 3%positive) exampleTree) as [h'| |] eqn:Hset;
    [| vm_compute in Hset; discriminate Hset ..].
  destruct (setChild_frees_replaced_subtree exampleTree 1%positive 0
              (Some 3%positive) h' (Some 2%positive) eq_refl Hset) as [Hdom _].
  exists h'. split_and!; [reflexivity | |].
  - destruct (h' !! 2%positive) as [n|] eqn:Hn; [| reflexivity].
    destruct (proj1 (Hdom 2%positive) (ex_intro _ n Hn)) as [_ Hno].
    destruct (Hno 2%positive eq_refl). apply owned_self.
  - apply Hdom. split.
    + apply (bool_decide_unpack _). vm_compute. exact I.
    + intros o [= <-]. apply (bool_decide_unpack _). vm_compute. exact I.
Defined.

Lemma setChild_keeps_ownership_example :
  ∃ h', setChild 1%positive 1 (Some 3%positive) exampleTree = Ok h' ∧
        ownersAgree h' ∧ noSharedSlot h'.
Proof.
  destruct exampleTree_ownership as (Hown & Hslot & Hdet).
  destruct (setChild 1%positive 1 (Some 3%positive) exampleTree) as [h'| |] eqn:Hset;
    [| vm_compute in Hset; discriminate Hset ..].
  exists h'. split; [reflexivity |].
  apply (setChild_keeps_ownership exampleTree 1%positive 1 (Some 3%positive) h'
           Hown Hslot); [| exact Hset].
  intros c [= <-]. exact Hdet.
Defined.

Lemma releaseChild_keeps_ownership_example :
  ∃ h', releaseChild 1%positive 0 exampleTree = Ok (h', Some 2%positive) ∧
        ownersAgree h' ∧ noSharedSlot h' ∧ detached 2%positive h'.
Proof.
  destruct exampleTree_ownership as (Hown & Hslot & _).
  destruct (releaseChild 1%positive 0 exampleTree) as [[h' c]| |] eqn:Hrel;
    [| vm_compute in Hrel; discriminate Hrel ..].
  assert (c = Some 2%positive) as ->.
  { vm_compute in Hrel. injection Hrel as _ <-. reflexivity. }
  destruct (releaseChild_keeps_ownership _ _ _ _ _ Hown Hslot Hrel)
    as (Hown' & Hslot' & Hdet').
  exists h'. split_and!; [reflexivity | exact Hown' | exact Hslot' |].
  exact (Hdet' _ eq_refl).
Defined.

Lemma releaseChild_setChild_round_trip_example :
  ∃ h1, releaseChild 1%positive 0 exampleTree = Ok (h1, Some 2%positive) ∧
        setChild 1%positive 0 (Some 2%positive) h1 = Ok exampleTree.
Proof.
  destruct (releaseChild 1%positive 0 exampleTree) as [[h1 c]| |] eqn:Hrel;
    [| vm_compute in Hrel; discriminate Hrel ..].
  assert (c = Some 2%positive) as ->.
  { vm_compute in Hrel. injection Hrel as _ <-. reflexivity. }
  exists h1. split; [reflexivity |].
  apply (releaseChild_setChild_round_trip exampleTree 1%positive 0 h1 2%positive Hrel).
  reflexivity.
Defined.

Lemma setParent_sets_back_reference_only_example :
  ∃ h', setParent 3%positive (Some 1%positive) exampleTree = Ok h' ∧
        getParent 3%positive h' = Ok (Some 1%positive) ∧
        getChild 1%positive 1 h' = Ok None ∧
        ¬ noDanglingBackRefs h'.
Proof.
  destruct (setParent 3%positive (Some 1%positive) exampleTree) as [h'| |] eqn:Hset;
    [| vm_compute in Hset; discriminate Hset ..].
  destruct (setParent_sets_back_reference_only _ _ _ _ Hset)
    as (Hpar & _ & Hch & _ & Hbad).
  exists h'. split_and!; [reflexivity | exact Hpar | by rewrite Hch |].
  apply (Hbad 1%positive eq_refl).
  intros q (_ & _ & [=])%exampleTree_slots.
Defined.

Lemma isRefined_after_releaseChild_example :
  ∃ h1, releaseChild 1%positive 0 exampleTree = Ok (h1, Some 2%positive) ∧
        isRefined 1%positive h1 = Ok false.
Proof.
  destruct (releaseChild 1%positive 0 exampleTree) as [[h1 c]| |] eqn:Hrel;
    [| vm_compute in Hrel; discriminate Hrel ..].
  assert (c = Some 2%positive) as ->.
  { vm_compute in Hrel. injection Hrel as _ <-. reflexivity. }
  exists h1. split; [reflexivity |]. exact (isRefined_after_releaseChild _ _ _ _ _ Hrel).
Defined.

Lemma isRefined_after_setChild_example :
  ∃ h2, setChild 1%positive 1 (Some 3%positive) exampleTree = Ok h2 ∧
        isRefined 1%positive h2 = Ok false.
Proof.
  destruct (setChild 1%positive 1 (Some 3%positive) exampleTree) as [h2| |] eqn:Hset;
    [| vm_compute in Hset; discriminate Hset ..].
  destruct (isRefined_after_setChild _ _ _ _ _ Hset) as (b & Hb & Hiff).
  exists h2. split; [reflexivity |]. rewrite Hb. f_equal.
  destruct b; [| reflexivity].
  destruct (proj1 Hiff eq_refl) as [_ Hall].
  destruct (Hall 2 ltac:(lia) ltac:(lia)) as [x Hx]. discriminate Hx.
Defined.

Lemma released_child_moves_to_empty_slot_example :
  ∃ h1 h2, releaseChild 1%positive 0 exampleTree = Ok (h1, Some 2%positive) ∧
           setChild 3%positive 2 (Some 2%positive) h1 = Ok h2 ∧
           getChild 1%positive 0 h2 = Ok None ∧
           getChild 3%positive 2 h2 = Ok (Some 2%positive) ∧
           getParent 2%positive h2 = Ok (Some 3%positive).
Proof.
  destruct (releaseChild 1%positive 0 exampleTree) as [[h1 c]| |] eqn:Hrel;
    [| vm_compute in Hrel; discriminate Hrel ..].
  assert (c = Some 2%positive) as ->.
  { vm_compute in Hrel. injection Hrel as _ <-. reflexivity. }
  destruct (released_child_moves_to_empty_slot exampleTree 1%positive 0
              3%positive 2 2%positive h1 Hrel eq_refl ltac:(discriminate))
    as (h2 & Hset & H1 & H2 & H3 & _).
  exists h1, h2. split_and!; [reflexivity | exact Hset | exact H1 | exact H2 | exact H3].
Defined.
